(** * Bitbucket manifest discovery: version store and reconciliation pass

    A shallow embedding of the catalog module
    [catalog-backend-module-bitbucket-manifest-discover]:

    - [versionStore.ts]: the [bb_manifest_versions] table and the three
      statements the store issues against it ([get], [upsertSeen],
      [markRegistered]);
    - [provider.ts]: [createLocationEntity], [processRepository],
      [fetchManifest] and [discover].

    The asynchronous methods are sequential ([await] on every call), so
    they are embedded in a state-and-exception monad over a [World] that
    holds the table, the database clock, the schedule of I/O failures, the
    trace of statements sent to the database, the mutations received by the
    catalog connection and the logger output.  The provider is first embedded
    at its declared TypeScript types, where a descriptor's [version] is a
    string; [yaml.parse] is cast to those types without a check, so module
    [Parsed] embeds it again over what the parser may yield. *)

From Stdlib Require Import String Ascii List Bool Arith Lia DecimalString.
Import ListNotations.
Local Open Scope list_scope.
Local Open Scope string_scope.

Set Implicit Arguments.

(** ** Data model *)

(** Timestamps are readings of the database clock. *)
Definition Time := nat.

(** A JavaScript [Error]: its [name] and its [message]. *)
Record Error := mkError { err_name : string; err_message : string }.

(** [new Error(msg)] *)
Definition new_Error (msg : string) : Error := mkError "Error" msg.

(** [`${error}`], i.e. [Error.prototype.toString]: the message alone when the
    name is empty, the name alone when the message is empty. *)
Definition Error_toString (e : Error) : string :=
  if String.eqb (err_name e) "" then err_message e
  else if String.eqb (err_message e) "" then err_name e
  else err_name e ++ ": " ++ err_message e.

(** [interface BitbucketManifestRepo] (provider.ts, l.14-19). *)
Record BitbucketManifestRepo := mkRepo {
  id : string;
  workspace : string;
  repoSlug : string;
  version : string
}.

(** [spec] of [interface BitbucketManifest]; [yaml.parse] is unchecked, so
    [repositories] may be missing. *)
Record ManifestSpec := mkSpec {
  repositories : option (list BitbucketManifestRepo)
}.

(** [interface BitbucketManifest] (provider.ts, l.21-30); [spec] may be
    missing in the parsed document. *)
Record BitbucketManifest := mkManifest {
  m_apiVersion : string;
  m_kind : string;
  m_name : string;
  spec : option ManifestSpec
}.

(** [interface ProviderConfig] (provider.ts, l.32-40), without the schedule,
    which only the scheduler reads. *)
Record ProviderConfig := mkConfig {
  manifestUrl : string;
  defaultBranch : string;
  defaultCatalogInfoPath : string
}.

(** A row of [bb_manifest_versions] (migration, l.8-30): [repo_key] is the
    primary key, [last_registered_at] is the only nullable column. *)
Record Row := mkRow {
  repo_key : string;
  manifest_version : string;
  last_seen_at : Time;
  last_registered_at : option Time
}.

(** The table is the list of its rows, in insertion order. *)
Definition Table := list Row.

(** [interface VersionRecord] (versionStore.ts, l.4-9). *)
Record VersionRecord := mkRecord {
  repoKey : string;
  manifestVersion : string;
  lastSeenAt : Time;
  lastRegisteredAt : option Time
}.

(** The [LocationEntity] built by [createLocationEntity]. *)
Record LocationEntity := mkLocation {
  apiVersion : string;
  kind : string;
  metadata_name : string;
  metadata_annotations : list (string * string);
  spec_type : string;
  spec_target : string
}.

(** An element of [added] / [removed] in a mutation. *)
Record DeferredEntity := mkDeferred {
  entity : LocationEntity;
  locationKey : string
}.

(** The argument of [connection.applyMutation]. *)
Record Mutation := mkMutation {
  mutation_type : string;
  added : list DeferredEntity;
  removed : list DeferredEntity
}.

(** Statements sent to the database. *)
Inductive DbStmt :=
| SelectFirst (key : string)
| InsertOnConflictMerge (key ver : string)
| UpdateRegistered (key : string).

Definition stmt_key (s : DbStmt) : string :=
  match s with
  | SelectFirst k => k
  | InsertOnConflictMerge k _ => k
  | UpdateRegistered k => k
  end.

Inductive LogLevel := Debug | Info | LogError.

(** ** The table statements *)

Definition key_is (k : string) (r : Row) : bool := String.eqb (repo_key r) k.

(** [db('bb_manifest_versions').where({ repo_key }).first()] *)
Definition select_first (k : string) (t : Table) : option Row :=
  find (key_is k) t.

(** [insert({...}).onConflict('repo_key').merge({manifest_version,
    last_seen_at})]: a conflicting row keeps its [last_registered_at]; without
    a conflict the row is inserted with [last_registered_at: null]. *)
Definition insert_on_conflict_merge
    (now : Time) (k ver : string) (t : Table) : Table :=
  if existsb (key_is k) t then
    map (fun r =>
           if key_is k r
           then mkRow (repo_key r) ver now (last_registered_at r)
           else r) t
  else (t ++ [mkRow k ver now None])%list.

(** [where({ repo_key }).update({ last_registered_at: now() })] *)
Definition update_registered (now : Time) (k : string) (t : Table) : Table :=
  map (fun r =>
         if key_is k r
         then mkRow (repo_key r) (manifest_version r) (last_seen_at r) (Some now)
         else r) t.

(** The primary-key constraint on [repo_key]. *)
Definition primary_key (t : Table) : Prop := NoDup (map repo_key t).

(** ** The world and the monad *)

Record World := mkWorld {
  table : Table;                       (* bb_manifest_versions *)
  clock : Time;                        (* the database's now() *)
  faults : list (option Error);        (* outcome of the next I/O calls *)
  db_trace : list DbStmt;              (* statements sent so far *)
  sink : list Mutation;                (* mutations the connection applied *)
  log : list (LogLevel * string);      (* logger output *)
  connected : bool                     (* this.connection is set *)
}.

Inductive Result (A : Type) :=
| Ok (a : A)
| Throw (e : Error).
Arguments Throw {A} e.

Definition M (A : Type) := World -> Result A * World.

Definition ret {A} (a : A) : M A := fun w => (Ok a, w).

Definition throw {A} (e : Error) : M A := fun w => (Throw e, w).

Definition bind {A B} (m : M A) (k : A -> M B) : M B :=
  fun w =>
    match m w with
    | (Ok a, w') => k a w'
    | (Throw e, w') => (Throw e, w')
    end.

(** [try { m } catch (error) { h error }] *)
Definition try_catch {A} (m : M A) (h : Error -> M A) : M A :=
  fun w =>
    match m w with
    | (Ok a, w') => (Ok a, w')
    | (Throw e, w') => h e w'
    end.

Declare Scope monad_scope.
Delimit Scope monad_scope with monad.
Notation "x <- m ;; k" := (bind m (fun x => k))
  (at level 61, m at next level, right associativity) : monad_scope.
Notation "m ;;; k" := (bind m (fun _ => k))
  (at level 61, right associativity) : monad_scope.
Local Open Scope monad_scope.

(** [this.logger.debug/info/error(msg)] *)
Definition logger (lvl : LogLevel) (msg : string) : M unit :=
  fun w =>
    (Ok tt,
     mkWorld (table w) (clock w) (faults w) (db_trace w) (sink w)
             (log w ++ [(lvl, msg)])%list (connected w)).

(** One awaited statement.  The statement is recorded, the clock advances and
    one entry of the failure schedule is consumed; a scheduled failure rejects
    the promise and leaves the table as it was, otherwise the statement runs
    against the table at the current clock reading. *)
Definition db_call {A} (stmt : DbStmt) (run : Time -> Table -> A * Table)
  : M A :=
  fun w =>
    match faults w with
    | Some e :: _ =>
        (Throw e,
         mkWorld (table w) (S (clock w)) (tl (faults w))
                 (db_trace w ++ [stmt])%list (sink w) (log w) (connected w))
    | _ =>
        let (a, t') := run (clock w) (table w) in
        (Ok a,
         mkWorld t' (S (clock w)) (tl (faults w))
                 (db_trace w ++ [stmt])%list (sink w) (log w) (connected w))
    end.

(** [await this.connection.applyMutation(mutation)] *)
Definition applyMutation (mu : Mutation) : M unit :=
  fun w =>
    match faults w with
    | Some e :: _ =>
        (Throw e,
         mkWorld (table w) (clock w) (tl (faults w))
                 (db_trace w) (sink w) (log w) (connected w))
    | _ =>
        (Ok tt,
         mkWorld (table w) (clock w) (tl (faults w))
                 (db_trace w) (sink w ++ [mu])%list (log w) (connected w))
    end.

(** No I/O failure is scheduled. *)
Definition fault_free (w : World) : Prop := Forall (fun f => f = None) (faults w).

(** ** [class VersionStore] (versionStore.ts) *)

Module VersionStore.

(** [get] (l.23-40) *)
Definition get (repoKey : string) : M (option VersionRecord) :=
  row <- db_call (SelectFirst repoKey)
                 (fun _ t => (select_first repoKey t, t)) ;;
  match row with
  | None => ret None
  | Some row =>
      ret (Some (mkRecord (repo_key row) (manifest_version row)
                          (last_seen_at row) (last_registered_at row)))
  end.

(** [upsertSeen] (l.45-60) *)
Definition upsertSeen (repoKey ver : string) : M unit :=
  db_call (InsertOnConflictMerge repoKey ver)
          (fun now t => (tt, insert_on_conflict_merge now repoKey ver t)) ;;;
  logger Debug ("Updated version for " ++ repoKey ++ " to " ++ ver).

(** [markRegistered] (l.65-71) *)
Definition markRegistered (repoKey : string) : M unit :=
  db_call (UpdateRegistered repoKey)
          (fun now t => (tt, update_registered now repoKey t)) ;;;
  logger Debug ("Marked " ++ repoKey ++ " as registered").

End VersionStore.

(** ** [class BitbucketManifestDiscoverEntityProvider] (provider.ts) *)

(** [integration.config]: the credentials of a Bitbucket Cloud integration. *)
Record IntegrationConfig := mkIntegration {
  username : option string;
  appPassword : option string
}.

(** What [fetch] settles to. *)
Record Response := mkResponse {
  ok : bool;
  status : nat;
  statusText : string;
  text : string
}.

Inductive FetchOutcome :=
| NetworkError (e : Error)
| Responded (r : Response).

(** What [yaml.parse] returns: it throws, or yields [null], or a document. *)
Inductive ParseOutcome :=
| YamlError (e : Error)
| YamlNull
| YamlDocument (m : BitbucketManifest).

(** The provider's configuration and its external collaborators. *)
Record Env := mkEnv {
  config : ProviderConfig;
  byUrl : string -> option IntegrationConfig;   (* integrations.bitbucketCloud.byUrl *)
  base64 : string -> string;                     (* Buffer.from(s).toString('base64') *)
  http_fetch : string -> list (string * string) -> FetchOutcome;
  yaml_parse : string -> ParseOutcome
}.

(** Truthiness of an optional string. *)
Definition truthy (s : option string) : bool :=
  match s with
  | Some s => negb (String.eqb s "")
  | None => false
  end.

(** [`${n}`] for a non-negative integer. *)
Definition string_of_nat (n : nat) : string :=
  NilEmpty.string_of_uint (Nat.to_uint n).

(** [getProviderName] (l.106-108) *)
Definition getProviderName : string := "bitbucket-manifest-discover".

(** [`${repo.workspace}/${repo.repoSlug}`] (l.233) *)
Definition repoKey_of (repo : BitbucketManifestRepo) : string :=
  workspace repo ++ "/" ++ repoSlug repo.

(** The result of [processRepository]. *)
Record ProcessResult := mkResult {
  location : LocationEntity;
  shouldRegister : bool
}.

(** [stored && stored.manifestVersion === repo.version] (l.240), for a
    version that is a string; [Parsed.version_unchanged] is the comparison
    for any parsed value. *)
Definition version_unchanged
    (stored : option VersionRecord) (repo : BitbucketManifestRepo) : bool :=
  match stored with
  | Some s => String.eqb (manifestVersion s) (version repo)
  | None => false
  end.

(** [stored?.manifestVersion || 'new'] (l.254) *)
Definition stored_or_new (stored : option VersionRecord) : string :=
  match stored with
  | Some s => if String.eqb (manifestVersion s) "" then "new" else manifestVersion s
  | None => "new"
  end.

Section Provider.

Variable env : Env.

(** [createLocationEntity] (l.271-290) *)
Definition createLocationEntity (repo : BitbucketManifestRepo) : LocationEntity :=
  let catalogUrl :=
    "https://bitbucket.org/" ++ workspace repo ++ "/" ++ repoSlug repo
      ++ "/raw/" ++ defaultBranch (config env) ++ "/"
      ++ defaultCatalogInfoPath (config env) in
  mkLocation
    "backstage.io/v1alpha1"
    "Location"
    ("bitbucket-manifest-" ++ workspace repo ++ "-" ++ repoSlug repo)
    [ ("backstage.io/managed-by-location", "url:" ++ manifestUrl (config env));
      ("bitbucket.org/repo-key", workspace repo ++ "/" ++ repoSlug repo);
      ("bitbucket.org/manifest-version", version repo) ]
    "url"
    catalogUrl.

(** [processRepository] (l.230-266) *)
Definition processRepository (repo : BitbucketManifestRepo) : M ProcessResult :=
  let repoKey := repoKey_of repo in
  logger Debug ("Processing " ++ repoKey ++ " version " ++ version repo) ;;;
  stored <- VersionStore.get repoKey ;;
  if version_unchanged stored repo then
    logger Debug (repoKey ++ " version unchanged (" ++ version repo
                    ++ "), skipping registration") ;;;
    ret (mkResult (createLocationEntity repo) false)
  else
    logger Info (repoKey ++ " version changed: " ++ stored_or_new stored
                   ++ " -> " ++ version repo) ;;;
    VersionStore.upsertSeen repoKey (version repo) ;;;
    VersionStore.markRegistered repoKey ;;;
    ret (mkResult (createLocationEntity repo) true).

(** The request headers of [fetchManifest] (l.195-206): basic authentication
    is added when both credentials are set. *)
Definition request_headers (credentials : IntegrationConfig)
  : list (string * string) :=
  if truthy (username credentials) && truthy (appPassword credentials) then
    let auth :=
      base64 env (match username credentials with Some u => u | None => "" end
                    ++ ":"
                    ++ match appPassword credentials with Some p => p | None => "" end) in
    [("Accept", "application/yaml"); ("Authorization", "Basic " ++ auth)]
  else [("Accept", "application/yaml")].

(** [fetchManifest] (l.182-225) *)
Definition fetchManifest : M BitbucketManifest :=
  logger Debug ("Fetching manifest from " ++ manifestUrl (config env)) ;;;
  match byUrl env (manifestUrl (config env)) with
  | None =>
      throw (new_Error "No Bitbucket Cloud integration configured for manifest URL")
  | Some credentials =>
      match http_fetch env (manifestUrl (config env))
                       (request_headers credentials) with
      | NetworkError e => throw e
      | Responded response =>
          if negb (ok response) then
            throw (new_Error ("Failed to fetch manifest: "
                                ++ string_of_nat (status response) ++ " "
                                ++ statusText response))
          else
            match yaml_parse env (text response) with
            | YamlError e => throw e
            | YamlNull =>
                throw (mkError "TypeError"
                         "Cannot read properties of null (reading 'spec')")
            | YamlDocument manifest =>
                match spec manifest with
                | Some (mkSpec (Some _)) => ret manifest
                | _ => throw (new_Error "Invalid manifest: missing spec.repositories")
                end
            end
      end
  end.

(** [manifest.spec.repositories] of a manifest that passed [fetchManifest]. *)
Definition manifest_repositories (m : BitbucketManifest) : list BitbucketManifestRepo :=
  match spec m with
  | Some (mkSpec (Some repos)) => repos
  | _ => []
  end.

(** The [for] loop of [discover] (l.147-154), which the specification calls
    [reconcile]: [acc] is [locationsToRegister] so far. *)
Fixpoint reconcile (repos : list BitbucketManifestRepo) (acc : list LocationEntity)
  : M (list LocationEntity) :=
  match repos with
  | [] => ret acc
  | repo :: rest =>
      result <- processRepository repo ;;
      reconcile rest
        (if shouldRegister result then (acc ++ [location result])%list else acc)
  end.

(** The mutation handed to the connection (l.158-165). *)
Definition delta_mutation (locationsToRegister : list LocationEntity) : Mutation :=
  mkMutation "delta"
    (map (fun location => mkDeferred location getProviderName) locationsToRegister)
    [].

(** [discover] (l.132-177) *)
Definition discover : M unit :=
  fun w =>
    if negb (connected w) then throw (new_Error "Provider not connected") w
    else
      (logger Info "Starting Bitbucket manifest discovery" ;;;
       try_catch
         (manifest <- fetchManifest ;;
          logger Info ("Found "
                         ++ string_of_nat (List.length (manifest_repositories manifest))
                         ++ " repositories in manifest") ;;;
          locationsToRegister <- reconcile (manifest_repositories manifest) [] ;;
          if Nat.ltb 0 (List.length locationsToRegister) then
            applyMutation (delta_mutation locationsToRegister) ;;;
            logger Info ("Discovery completed: "
                           ++ string_of_nat (List.length locationsToRegister)
                           ++ " locations registered/updated")
          else
            logger Info "Discovery completed: no version changes detected")
         (fun error =>
            logger LogError ("Discovery failed: " ++ Error_toString error) ;;;
            throw error)) w.

End Provider.

(** ** The specification's view of a pass

    Section 4.2 of the specification classifies each descriptor against the
    version last recorded for its key.  These definitions follow its words;
    the theorems below compare them with the code. *)

Inductive Classification := Unchanged | New | Changed.

(** Step 3 of the algorithm. *)
Definition classify (prior : option string) (ver : string) : Classification :=
  match prior with
  | None => New
  | Some pv => if String.eqb pv ver then Unchanged else Changed
  end.

Definition needs_publication (c : Classification) : bool :=
  match c with
  | Unchanged => false
  | _ => true
  end.

(** The versions a store knows, key by key. *)
Definition Known := string -> option string.

Definition record_version (k ver : string) (known : Known) : Known :=
  fun k' => if String.eqb k' k then Some ver else known k'.

(** The descriptors a pass classifies New or Changed, in manifest order; a
    New or Changed descriptor records its version before the next descriptor
    is classified. *)
Fixpoint changed_repos (known : Known) (repos : list BitbucketManifestRepo)
  : list BitbucketManifestRepo :=
  match repos with
  | [] => []
  | repo :: rest =>
      if needs_publication (classify (known (repoKey_of repo)) (version repo))
      then repo :: changed_repos
                     (record_version (repoKey_of repo) (version repo) known) rest
      else changed_repos known rest
  end.

(** The versions known after a pass. *)
Fixpoint known_after (known : Known) (repos : list BitbucketManifestRepo) : Known :=
  match repos with
  | [] => known
  | repo :: rest =>
      if needs_publication (classify (known (repoKey_of repo)) (version repo))
      then known_after (record_version (repoKey_of repo) (version repo) known) rest
      else known_after known rest
  end.

(** The versions a table holds. *)
Definition known_of (t : Table) : Known :=
  fun k => option_map manifest_version (select_first k t).

(** Descriptors that share a key declare the same version. *)
Definition consistent (repos : list BitbucketManifestRepo) : Prop :=
  forall r1 r2, In r1 repos -> In r2 repos ->
    repoKey_of r1 = repoKey_of r2 -> version r1 = version r2.

(** The last descriptor of [repos] with key [k]. *)
Definition last_with_key (k : string) (repos : list BitbucketManifestRepo)
  : option BitbucketManifestRepo :=
  find (fun r => String.eqb (repoKey_of r) k) (rev repos).

(** All the rows a table holds for a key. *)
Definition rows_of (k : string) (t : Table) : list Row := filter (key_is k) t.

(** What [discover] does with the outcome of its loop, logging apart
    (l.156-176): an error is rethrown, a non-empty list is handed to the
    connection, an empty one is not. *)
Definition publish (r : Result (list LocationEntity)) : M unit :=
  match r with
  | Throw e => throw e
  | Ok locationsToRegister =>
      if Nat.ltb 0 (List.length locationsToRegister)
      then applyMutation (delta_mutation locationsToRegister)
      else ret tt
  end.

(** The fetch-level failures: no integration is configured for the URL, the
    manifest is unreachable, the response is not a success, the content is
    not YAML or is empty, or the parsed content has no [spec.repositories]. *)
Inductive fetch_failure (env : Env) : Prop :=
| NoIntegration :
    byUrl env (manifestUrl (config env)) = None ->
    fetch_failure env
| Unreachable credentials e :
    byUrl env (manifestUrl (config env)) = Some credentials ->
    http_fetch env (manifestUrl (config env)) (request_headers env credentials)
      = NetworkError e ->
    fetch_failure env
| NonSuccess credentials response :
    byUrl env (manifestUrl (config env)) = Some credentials ->
    http_fetch env (manifestUrl (config env)) (request_headers env credentials)
      = Responded response ->
    ok response = false ->
    fetch_failure env
| MissingRepositories credentials response manifest :
    byUrl env (manifestUrl (config env)) = Some credentials ->
    http_fetch env (manifestUrl (config env)) (request_headers env credentials)
      = Responded response ->
    ok response = true ->
    yaml_parse env (text response) = YamlDocument manifest ->
    spec manifest = None \/ spec manifest = Some (mkSpec None) ->
    fetch_failure env
| Malformed credentials response e :
    byUrl env (manifestUrl (config env)) = Some credentials ->
    http_fetch env (manifestUrl (config env)) (request_headers env credentials)
      = Responded response ->
    ok response = true ->
    yaml_parse env (text response) = YamlError e ->
    fetch_failure env
| NullDocument credentials response :
    byUrl env (manifestUrl (config env)) = Some credentials ->
    http_fetch env (manifestUrl (config env)) (request_headers env credentials)
      = Responded response ->
    ok response = true ->
    yaml_parse env (text response) = YamlNull ->
    fetch_failure env.

(** ** Worlds that differ in the logger output only *)

Record same_state (w w' : World) : Prop := mkSame {
  same_table : table w = table w';
  same_clock : clock w = clock w';
  same_faults : faults w = faults w';
  same_trace : db_trace w = db_trace w';
  same_sink : sink w = sink w';
  same_connected : connected w = connected w'
}.

(** A computation is blind to the log when it behaves alike in worlds that
    differ in the log only. *)
Definition log_blind {A} (m : M A) : Prop :=
  forall w w', same_state w w' ->
    fst (m w) = fst (m w') /\ same_state (snd (m w)) (snd (m w')).

(** A computation that touches nothing but the log. *)
Definition log_only {A} (m : M A) : Prop :=
  forall w, same_state w (snd (m w)).

(** ** Construction and connection of the provider *)

(** [{ hours?: number; minutes?: number }] *)
Record HumanDuration := mkDuration {
  hours : option nat;
  minutes : option nat
}.

(** [schedule] of [interface ProviderConfig] (provider.ts, l.36-39). *)
Record Schedule := mkSchedule {
  frequency : HumanDuration;
  timeout : HumanDuration
}.

(** The argument of [scheduler.scheduleTask]; its [fn] is [discover]. *)
Record ScheduledTask := mkTask {
  task_id : string;
  task_frequency : HumanDuration;
  task_timeout : HumanDuration
}.

(** The backend a provider is connected to: the world of the provider and
    the tasks the scheduler holds. *)
Record Backend := mkBackend {
  world : World;
  tasks : list ScheduledTask
}.

(** [this.connection = connection] (l.111) *)
Definition set_connection : M unit :=
  fun w =>
    (Ok tt,
     mkWorld (table w) (clock w) (faults w) (db_trace w) (sink w) (log w) true).

(** [await this.db.migrate.latest(...)]: one awaited call that may fail; it
    changes the schema, not the rows. *)
Definition migrate_latest : M unit :=
  fun w =>
    match faults w with
    | Some e :: _ =>
        (Throw e,
         mkWorld (table w) (clock w) (tl (faults w))
                 (db_trace w) (sink w) (log w) (connected w))
    | _ =>
        (Ok tt,
         mkWorld (table w) (clock w) (tl (faults w))
                 (db_trace w) (sink w) (log w) (connected w))
    end.

(** [VersionStore.runMigrations] (versionStore.ts, l.76-85) *)
Definition runMigrations : M unit :=
  logger Info "Running Bitbucket Manifest Discover migrations..." ;;;
  migrate_latest ;;;
  logger Info "Migrations completed successfully".

(** [connect] (provider.ts, l.110-127) *)
Definition connect (schedule : Schedule) (b : Backend) : Result unit * Backend :=
  match (set_connection ;;; runMigrations) (world b) with
  | (Throw e, w1) => (Throw e, mkBackend w1 (tasks b))
  | (Ok _, w1) =>
      let w2 := mkWorld (table w1) (clock w1) (tl (faults w1))
                        (db_trace w1) (sink w1) (log w1) (connected w1) in
      match faults w1 with
      | Some e :: _ => (Throw e, mkBackend w2 (tasks b))
      | _ =>
          (fst (logger Info "Bitbucket Manifest Discover provider initialized" w2),
           mkBackend
             (snd (logger Info "Bitbucket Manifest Discover provider initialized" w2))
             (tasks b ++ [mkTask "bitbucket-manifest-discover"
                                 (frequency schedule) (timeout schedule)])%list)
      end
  end.

(** ** Properties of tables and traces *)

(** A registration is never older than the sighting it belongs to. *)
Definition registered_after_seen (t : Table) : Prop :=
  Forall (fun row => match last_registered_at row with
                     | Some registered => last_seen_at row <= registered
                     | None => True
                     end) t.

(** Where the store protocol stands: nothing pending, a key was read, or a
    key was read and upserted. *)
Inductive Phase :=
| Idle
| Selected (k : string)
| Upserted (k : string).

(** A read may start at any time but after an upsert; an upsert follows the
    read of its key; a registration follows the upsert of its key. *)
Definition protocol_step (p : Phase) (s : DbStmt) : option Phase :=
  match p, s with
  | Idle, SelectFirst k => Some (Selected k)
  | Selected _, SelectFirst k => Some (Selected k)
  | Selected k, InsertOnConflictMerge k' _ =>
      if String.eqb k k' then Some (Upserted k) else None
  | Upserted k, UpdateRegistered k' =>
      if String.eqb k k' then Some Idle else None
  | _, _ => None
  end.

Fixpoint protocol_run (p : Phase) (stmts : list DbStmt) : option Phase :=
  match stmts with
  | [] => Some p
  | s :: rest =>
      match protocol_step p s with
      | Some p' => protocol_run p' rest
      | None => None
      end
  end.

(** No descriptor is half done. *)
Definition resting (p : Phase) : Prop :=
  match p with
  | Upserted _ => False
  | _ => True
  end.

(** The version a key had before a pass that follows a pass over [repos]:
    the last one [repos] declared for it, or else the one known before. *)
Definition previous_version (known : Known) (repos : list BitbucketManifestRepo)
  : Known :=
  fun k =>
    match last_with_key k repos with
    | Some r => Some (version r)
    | None => known k
    end.

(** A string without the character [c]. *)
Fixpoint lacks (c : ascii) (s : string) : bool :=
  match s with
  | EmptyString => true
  | String a rest => negb (Ascii.eqb a c) && lacks c rest
  end.

(** ** The provider over what [yaml.parse] yields

    [fetchManifest] casts the parsed document to [BitbucketManifest] without
    a check (provider.ts, l.217), so a descriptor's [version] is whatever
    scalar the manifest holds: [version: 2] is a number, [version: "2"] and
    [version: 1.0.0] are strings.  The other fields of a descriptor are only
    ever interpolated into strings and are given by their printed text. *)

Module Parsed.

(** A scalar of the manifest: a string, or a number or boolean given by the
    text JavaScript prints for it. *)
Inductive Scalar :=
| Text (s : string)
| NotText (printed : string).

(** [`${v}`], which is also the text the database driver sends for [v]. *)
Definition print (v : Scalar) : string :=
  match v with
  | Text s => s
  | NotText printed => printed
  end.

(** [s === v] for a string [s]: no value that is not a string equals one. *)
Definition strictly_equals (s : string) (v : Scalar) : bool :=
  match v with
  | Text s' => String.eqb s s'
  | NotText _ => false
  end.

(** An entry of [spec.repositories] as parsed. *)
Record Descriptor := mkDescriptor {
  id : string;
  workspace : string;
  repoSlug : string;
  version : Scalar
}.

(** The descriptor as the string templates and the store see it. *)
Definition cast (d : Descriptor) : BitbucketManifestRepo :=
  mkRepo (id d) (workspace d) (repoSlug d) (print (version d)).

Definition is_text (d : Descriptor) : bool :=
  match version d with
  | Text _ => true
  | NotText _ => false
  end.

Record DocumentSpec := mkDocumentSpec {
  repositories : option (list Descriptor)
}.

(** The parsed document. *)
Record Document := mkDocument {
  apiVersion : string;
  kind : string;
  name : string;
  spec : option DocumentSpec
}.

Definition cast_document (m : Document) : BitbucketManifest :=
  mkManifest (apiVersion m) (kind m) (name m)
    (match spec m with
     | Some sp => Some (mkSpec (match repositories sp with
                                | Some repos => Some (map cast repos)
                                | None => None
                                end))
     | None => None
     end).

(** What [yaml.parse] returns. *)
Inductive Outcome :=
| ParseThrows (e : Error)
| ParsedNull
| ParsedDocument (m : Document).

Definition cast_outcome (o : Outcome) : ParseOutcome :=
  match o with
  | ParseThrows e => YamlError e
  | ParsedNull => YamlNull
  | ParsedDocument m => YamlDocument (cast_document m)
  end.

(** The provider's configuration and its external collaborators. *)
Record Environment := mkEnvironment {
  config : ProviderConfig;
  byUrl : string -> option IntegrationConfig;
  base64 : string -> string;
  http_fetch : string -> list (string * string) -> FetchOutcome;
  yaml_parse : string -> Outcome
}.

(** The environment as the typed embedding sees it. *)
Definition typed (env : Environment) : Env :=
  mkEnv (config env) (byUrl env) (base64 env) (http_fetch env)
        (fun content => cast_outcome (yaml_parse env content)).

(** [stored && stored.manifestVersion === repo.version] (l.240) *)
Definition version_unchanged
    (stored : option VersionRecord) (repo : Descriptor) : bool :=
  match stored with
  | Some s => strictly_equals (manifestVersion s) (version repo)
  | None => false
  end.

Section Provider.

Variable env : Environment.

(** [processRepository] (l.230-266) *)
Definition processRepository (repo : Descriptor) : M ProcessResult :=
  let repoKey := workspace repo ++ "/" ++ repoSlug repo in
  logger Debug ("Processing " ++ repoKey ++ " version " ++ print (version repo)) ;;;
  stored <- VersionStore.get repoKey ;;
  if version_unchanged stored repo then
    logger Debug (repoKey ++ " version unchanged (" ++ print (version repo)
                    ++ "), skipping registration") ;;;
    ret (mkResult (createLocationEntity (typed env) (cast repo)) false)
  else
    logger Info (repoKey ++ " version changed: " ++ stored_or_new stored
                   ++ " -> " ++ print (version repo)) ;;;
    VersionStore.upsertSeen repoKey (print (version repo)) ;;;
    VersionStore.markRegistered repoKey ;;;
    ret (mkResult (createLocationEntity (typed env) (cast repo)) true).

(** [fetchManifest] (l.182-225) *)
Definition fetchManifest : M Document :=
  logger Debug ("Fetching manifest from " ++ manifestUrl (config env)) ;;;
  match byUrl env (manifestUrl (config env)) with
  | None =>
      throw (new_Error "No Bitbucket Cloud integration configured for manifest URL")
  | Some credentials =>
      match http_fetch env (manifestUrl (config env))
                       (request_headers (typed env) credentials) with
      | NetworkError e => throw e
      | Responded response =>
          if negb (ok response) then
            throw (new_Error ("Failed to fetch manifest: "
                                ++ string_of_nat (status response) ++ " "
                                ++ statusText response))
          else
            match yaml_parse env (text response) with
            | ParseThrows e => throw e
            | ParsedNull =>
                throw (mkError "TypeError"
                         "Cannot read properties of null (reading 'spec')")
            | ParsedDocument manifest =>
                match spec manifest with
                | Some (mkDocumentSpec (Some _)) => ret manifest
                | _ => throw (new_Error "Invalid manifest: missing spec.repositories")
                end
            end
      end
  end.

(** [manifest.spec.repositories] of a document that passed [fetchManifest]. *)
Definition manifest_repositories (m : Document) : list Descriptor :=
  match spec m with
  | Some (mkDocumentSpec (Some repos)) => repos
  | _ => []
  end.

(** The [for] loop of [discover] (l.147-154). *)
Fixpoint reconcile (repos : list Descriptor) (acc : list LocationEntity)
  : M (list LocationEntity) :=
  match repos with
  | [] => ret acc
  | repo :: rest =>
      result <- processRepository repo ;;
      reconcile rest
        (if shouldRegister result then (acc ++ [location result])%list else acc)
  end.

(** [discover] (l.132-177) *)
Definition discover : M unit :=
  fun w =>
    if negb (connected w) then throw (new_Error "Provider not connected") w
    else
      (logger Info "Starting Bitbucket manifest discovery" ;;;
       try_catch
         (manifest <- fetchManifest ;;
          logger Info ("Found "
                         ++ string_of_nat (List.length (manifest_repositories manifest))
                         ++ " repositories in manifest") ;;;
          locationsToRegister <- reconcile (manifest_repositories manifest) [] ;;
          if Nat.ltb 0 (List.length locationsToRegister) then
            applyMutation (delta_mutation locationsToRegister) ;;;
            logger Info ("Discovery completed: "
                           ++ string_of_nat (List.length locationsToRegister)
                           ++ " locations registered/updated")
          else
            logger Info "Discovery completed: no version changes detected")
         (fun error =>
            logger LogError ("Discovery failed: " ++ Error_toString error) ;;;
            throw error)) w.

End Provider.

(** Every version of the descriptors is a string. *)
Definition text_versions (repos : list Descriptor) : Prop :=
  Forall (fun d => is_text d = true) repos.

End Parsed.

(** ** [class BitbucketSingleBranchProvider]
    (catalog-backend-module-bitbucket-single-branch/src/provider.ts) *)

Module SingleBranch.

(** The [opts] of the provider, without its collaborators. *)
Record Opts := mkOpts {
  workspace : string;
  branch : string;
  catalogPath : string
}.

(** An element of [data.values]. *)
Record RepoItem := mkItem { slug : option string }.

(** The fields [listRepos] reads in the body of a response. *)
Record Page := mkPage {
  values : option (list RepoItem);
  next : option string
}.

(** What [res.json()] settles to: it throws, or yields [null], or a value
    with the fields above. *)
Inductive JsonOutcome :=
| JsonThrows (e : Error)
| JsonNull
| JsonValue (data : Page).

Record ApiResponse := mkApiResponse {
  ok : bool;
  status : nat;
  body : string;            (* res.text() *)
  json : JsonOutcome        (* res.json() *)
}.

Inductive ApiOutcome :=
| ApiNetworkError (e : Error)
| ApiResponded (res : ApiResponse).

(** The provider's options and what surrounds it during one run. *)
Record Env := mkEnv {
  opts : Opts;
  BITBUCKET_USERNAME : option string;          (* process.env *)
  BITBUCKET_TOKEN : option string;
  base64 : string -> string;                   (* Buffer.from(s).toString('base64') *)
  encodeURIComponent : string -> string;
  fetch : string -> list (string * string) -> ApiOutcome;
  readUrl : string -> bool;                    (* urlReader.readUrl resolves *)
  applyMutation_error : option Error           (* connection.applyMutation rejects *)
}.

(** The [LocationEntityV1alpha1] built by [run] (l.78-97). *)
Record Location := mkLocation {
  apiVersion : string;
  kind : string;
  name : string;
  annotations : list (string * string);
  labels : list (string * string);
  spec_type : string;
  targets : list string
}.

Record Deferred := mkDeferred {
  entity : Location;
  locationKey : string
}.

(** The argument of [connection.applyMutation] (l.100-106). *)
Record FullMutation := mkFull {
  mutation_type : string;
  entities : list Deferred
}.

Record World := mkWorld {
  connected : bool;                              (* this.connection is set *)
  requests : list (string * list (string * string));   (* calls of fetch *)
  probes : list string;                          (* calls of urlReader.readUrl *)
  console : list (string * option string);       (* console.log *)
  infos : list string;                           (* logger.info *)
  published : list FullMutation                  (* mutations applied *)
}.

(** A computation returns or throws, with the world it leaves, or it has not
    finished when the fuel of its loop is spent. *)
Definition M (A : Type) := World -> option (Result A * World).

Definition ret {A} (a : A) : M A := fun w => Some (Ok a, w).

Definition throw {A} (e : Error) : M A := fun w => Some (Throw e, w).

Definition out_of_fuel {A} : M A := fun _ => None.

Definition bind {A B} (m : M A) (k : A -> M B) : M B :=
  fun w =>
    match m w with
    | Some (Ok a, w') => k a w'
    | Some (Throw e, w') => Some (Throw e, w')
    | None => None
    end.

Declare Scope single_branch_scope.
Notation "x <- m ;; k" := (bind m (fun x => k))
  (at level 61, m at next level, right associativity) : single_branch_scope.
Notation "m ;;; k" := (bind m (fun _ => k))
  (at level 61, right associativity) : single_branch_scope.
Local Open Scope single_branch_scope.

Definition console_log (msg : string) (arg : option string) : M unit :=
  fun w =>
    Some (Ok tt,
          mkWorld (connected w) (requests w) (probes w)
                  (console w ++ [(msg, arg)])%list (infos w) (published w)).

Definition logger_info (msg : string) : M unit :=
  fun w =>
    Some (Ok tt,
          mkWorld (connected w) (requests w) (probes w) (console w)
                  (infos w ++ [msg])%list (published w)).

(** The world after further calls of [fetch]. *)
Definition add_requests (rs : list (string * list (string * string))) (w : World)
  : World :=
  mkWorld (connected w) (requests w ++ rs)%list (probes w) (console w)
          (infos w) (published w).

Section Provider.

Variable env : Env.

(** [await fetch(url, { headers })] *)
Definition await_fetch (url : string) (headers : list (string * string))
  : M ApiResponse :=
  fun w =>
    let w' := mkWorld (connected w) (requests w ++ [(url, headers)])%list
                      (probes w) (console w) (infos w) (published w) in
    match fetch env url headers with
    | ApiNetworkError e => Some (Throw e, w')
    | ApiResponded res => Some (Ok res, w')
    end.

(** [exists] (l.113-120): any failure of [readUrl] is swallowed. *)
Definition exists_ (url : string) : M bool :=
  fun w =>
    Some (Ok (readUrl env url),
          mkWorld (connected w) (requests w) (probes w ++ [url])%list
                  (console w) (infos w) (published w)).

(** [await this.connection.applyMutation(mutation)] *)
Definition applyMutation (mu : FullMutation) : M unit :=
  fun w =>
    match applyMutation_error env with
    | Some e => Some (Throw e, w)
    | None =>
        Some (Ok tt,
              mkWorld (connected w) (requests w) (probes w) (console w)
                      (infos w) (published w ++ [mu])%list)
    end.

(** [getProviderName] (l.40-42) *)
Definition getProviderName : string :=
  "bitbucket-single-branch:" ++ workspace (opts env) ++ ":" ++ branch (opts env).

(** The slugs a page contributes (l.157-161): the truthy ones, in order. *)
Definition page_slugs (data : Page) : list string :=
  flat_map (fun repo => match slug repo with
                        | Some s => if String.eqb s "" then [] else [s]
                        | None => []
                        end)
           (match values data with Some vs => vs | None => [] end).

(** [data.next ?? ''] (l.163) *)
Definition next_url (data : Page) : string :=
  match next data with Some n => n | None => "" end.

Definition api_headers (auth : string) : list (string * string) :=
  [("Authorization", "Basic " ++ auth); ("Accept", "application/json")].

(** The [while (url)] loop of [listRepos] (l.142-164); [fuel] bounds the
    number of pages fetched. *)
Fixpoint pages (fuel : nat) (auth url : string) (repos : list string)
  : M (list string) :=
  if String.eqb url "" then ret repos
  else
    match fuel with
    | O => out_of_fuel
    | S fuel' =>
        res <- await_fetch url (api_headers auth) ;;
        if negb (ok res) then
          throw (new_Error ("Bitbucket listRepos failed ("
                              ++ string_of_nat (status res) ++ "): " ++ body res))
        else
          match json res with
          | JsonThrows e => throw e
          | JsonNull =>
              throw (mkError "TypeError"
                       "Cannot read properties of null (reading 'values')")
          | JsonValue data =>
              pages fuel' auth (next_url data) (repos ++ page_slugs data)%list
          end
    end.

Definition first_page_url : string :=
  "https://api.bitbucket.org/2.0/repositories/" ++ workspace (opts env)
    ++ "?pagelen=100".

(** [Buffer.from(`${username}:${token}`).toString('base64')] (l.137) *)
Definition auth_of : string :=
  base64 env (match BITBUCKET_USERNAME env with Some u => u | None => "" end
                ++ ":"
                ++ match BITBUCKET_TOKEN env with Some t => t | None => "" end).

(** [listRepos] (l.122-171) *)
Definition listRepos (fuel : nat) : M (list string) :=
  console_log "xxxxxxxxxxxxxxxxxxxxxxxxUsing Bitbucket username:xxxxxxxxxxxxxxxxxxxx"
              (BITBUCKET_USERNAME env) ;;;
  if negb (truthy (BITBUCKET_USERNAME env)) || negb (truthy (BITBUCKET_TOKEN env))
  then throw (new_Error "BITBUCKET_USERNAME or BITBUCKET_TOKEN not set")
  else
    repos <- pages fuel auth_of first_page_url [] ;;
    logger_info ("BitbucketSingleBranchProvider discovered "
                   ++ string_of_nat (List.length repos)
                   ++ " repos in workspace " ++ workspace (opts env)) ;;;
    ret repos.

(** The [target] of a repository (l.63-67). *)
Definition target_of (repo : string) : string :=
  "https://bitbucket.org/" ++ workspace (opts env) ++ "/" ++ repo ++ "/raw/"
    ++ encodeURIComponent env (branch (opts env)) ++ "/" ++ catalogPath (opts env).

(** The location pushed for a repository (l.78-97). *)
Definition location_of (repo : string) : Location :=
  let locationRef := "url:" ++ target_of repo in
  mkLocation
    "backstage.io/v1alpha1"
    "Location"
    ("bb-" ++ repo ++ "-" ++ branch (opts env))
    [ ("backstage.io/managed-by-location", locationRef);
      ("backstage.io/managed-by-origin-location", locationRef) ]
    [ ("branch", branch (opts env));
      ("workspace", workspace (opts env));
      ("repo", repo) ]
    "url"
    [target_of repo].

(** The [for] loop of [run] (l.62-98); [acc] is [locations] so far. *)
Fixpoint collect (repos : list string) (acc : list Location) : M (list Location) :=
  match repos with
  | [] => ret acc
  | repo :: rest =>
      console_log "xxxxxxxxxxxxxxxxxxxxxxxxChecking existence of:xxxxxxxxxxxxxxxxxxxx"
                  (Some (target_of repo)) ;;;
      found <- exists_ (target_of repo) ;;
      collect rest (if found then (acc ++ [location_of repo])%list else acc)
  end.

(** The mutation of [run] (l.100-106). *)
Definition full_mutation (locations : list Location) : FullMutation :=
  mkFull "full" (map (fun e => mkDeferred e getProviderName) locations).

(** [run] (l.56-111) *)
Definition run (fuel : nat) : M unit :=
  fun w =>
    if negb (connected w) then throw (new_Error "Provider not connected") w
    else
      (repos <- listRepos fuel ;;
       locations <- collect repos [] ;;
       applyMutation (full_mutation locations) ;;;
       logger_info ("Published " ++ string_of_nat (List.length locations)
                      ++ " catalog locations for branch " ++ branch (opts env))) w.

(** The URLs the loop of [listRepos] visits when it starts at [url] and the
    API answers with [ps], page after page. *)
Fixpoint visited (url : string) (ps : list Page) : list string :=
  match ps with
  | [] => []
  | data :: rest => url :: visited (next_url data) rest
  end.

(** Starting at [url], the API answers with the pages [ps], each a success
    with a body, and the last one points to [url']. *)
Inductive Walk (auth : string) : string -> list Page -> string -> Prop :=
| walk_nil url : Walk auth url [] url
| walk_cons url res data rest url' :
    url <> "" ->
    fetch env url (api_headers auth) = ApiResponded res ->
    ok res = true ->
    json res = JsonValue data ->
    Walk auth (next_url data) rest url' ->
    Walk auth url (data :: rest) url'.

End Provider.

End SingleBranch.

(** ** Sample configurations and states *)

Module Sample.

Definition cfg : ProviderConfig :=
  mkConfig "https://bitbucket.org/acme/manifests/raw/main/manifest.yaml"
           "main" "catalog-info.yaml".

Definition manifest_of (repos : list BitbucketManifestRepo) : BitbucketManifest :=
  mkManifest "backstage.io/v1alpha1" "BitbucketRepoManifest" "org-repos"
             (Some (mkSpec (Some repos))).

(** An environment whose manifest lists [repos]. *)
Definition serving (repos : list BitbucketManifestRepo) : Env :=
  mkEnv cfg
        (fun _ => Some (mkIntegration (Some "bot") (Some "secret")))
        (fun s => s)
        (fun _ _ => Responded (mkResponse true 200 "OK" "manifest"))
        (fun _ => YamlDocument (manifest_of repos)).

(** An environment whose manifest URL answers 404. *)
Definition not_found : Env :=
  mkEnv cfg
        (fun _ => Some (mkIntegration None None))
        (fun s => s)
        (fun _ _ => Responded (mkResponse false 404 "Not Found" ""))
        (fun _ => YamlNull).

Definition backend_1_0_0 := mkRepo "backend-service" "acme" "backend-service" "1.0.0".
Definition backend_1_0_1 := mkRepo "backend-service" "acme" "backend-service" "1.0.1".
Definition backend_padded := mkRepo "backend-service" "acme" "backend-service" "1.0.0 ".
Definition frontend_2_1_3 := mkRepo "frontend-app" "acme" "frontend-app" "2.1.3".

(** A connected provider over an empty table. *)
Definition fresh : World := mkWorld [] 0 [] [] [] [] true.

(** A store that recorded [backend-service] at 1.0.0 in an earlier pass. *)
Definition seen_backend : World :=
  mkWorld [mkRow "acme/backend-service" "1.0.0" 1 (Some 2)] 10 [] [] [] [] true.

Definition db_down : Error := new_Error "connection terminated unexpectedly".

(** The second statement of the pass fails. *)
Definition failing_upsert : World :=
  mkWorld [] 0 [None; Some db_down] [] [] [] true.

(** A store that recorded both repositories in an earlier pass. *)
Definition seen_both : World :=
  mkWorld [mkRow "acme/backend-service" "1.0.0" 1 (Some 2);
           mkRow "acme/frontend-app" "2.1.3" 4 (Some 5)]
          10 [] [] [] [] true.

(** The store answers the three statements of the first descriptor, then
    the sink fails. *)
Definition failing_sink : World :=
  mkWorld [] 0 [None; None; None; Some db_down] [] [] [] true.

(** A provider that was constructed but not connected yet. *)
Definition unconnected : Backend :=
  mkBackend (mkWorld [] 0 [] [] [] [] false) [].

(** A workspace of three repositories listed on two pages; the second item
    of the first page has no slug. *)
Definition sb_opts : SingleBranch.Opts :=
  SingleBranch.mkOpts "acme" "release/1" "catalog-info.yaml".

Definition sb_page1 : SingleBranch.Page :=
  SingleBranch.mkPage
    (Some [SingleBranch.mkItem (Some "api"); SingleBranch.mkItem None;
           SingleBranch.mkItem (Some "web")])
    (Some "https://api.bitbucket.org/2.0/repositories/acme?page=2").

Definition sb_page2 : SingleBranch.Page :=
  SingleBranch.mkPage (Some [SingleBranch.mkItem (Some "docs")]) None.

Definition sb_api (url : string) (headers : list (string * string))
  : SingleBranch.ApiOutcome :=
  if String.eqb url "https://api.bitbucket.org/2.0/repositories/acme?pagelen=100"
  then SingleBranch.ApiResponded
         (SingleBranch.mkApiResponse true 200 "" (SingleBranch.JsonValue sb_page1))
  else if String.eqb url "https://api.bitbucket.org/2.0/repositories/acme?page=2"
  then SingleBranch.ApiResponded
         (SingleBranch.mkApiResponse true 200 "" (SingleBranch.JsonValue sb_page2))
  else SingleBranch.ApiResponded
         (SingleBranch.mkApiResponse false 404 "not found" SingleBranch.JsonNull).

(** Only [api] has a catalog file on the branch. *)
Definition sb_env : SingleBranch.Env :=
  SingleBranch.mkEnv sb_opts (Some "bot") (Some "secret")
    (fun s => s)
    (fun s => if String.eqb s "release/1" then "release%2F1" else s)
    sb_api
    (String.eqb "https://bitbucket.org/acme/api/raw/release%2F1/catalog-info.yaml")
    None.

(** The same workspace when the second page is missing. *)
Definition sb_env_broken : SingleBranch.Env :=
  SingleBranch.mkEnv sb_opts (Some "bot") (Some "secret")
    (fun s => s) (fun s => s)
    (fun url headers =>
       if String.eqb url "https://api.bitbucket.org/2.0/repositories/acme?pagelen=100"
       then sb_api url headers
       else SingleBranch.ApiResponded
              (SingleBranch.mkApiResponse false 502 "bad gateway" SingleBranch.JsonNull))
    (fun _ => true)
    None.

(** An API whose only page names itself as the next one. *)
Definition sb_env_cyclic : SingleBranch.Env :=
  SingleBranch.mkEnv sb_opts (Some "bot") (Some "secret")
    (fun s => s) (fun s => s)
    (fun _ _ =>
       SingleBranch.ApiResponded
         (SingleBranch.mkApiResponse true 200 ""
            (SingleBranch.JsonValue
               (SingleBranch.mkPage
                  (Some [SingleBranch.mkItem (Some "api")])
                  (Some "https://api.bitbucket.org/2.0/repositories/acme?pagelen=100")))))
    (fun _ => true)
    None.


Definition sb_world : SingleBranch.World :=
  SingleBranch.mkWorld true [] [] [] [] [].

(** The backend and the frontend with versions as the parser yields them:
    [1.0.0] and [2.1.3] are strings. *)
Definition parsed_backend_1_0_0 : Parsed.Descriptor :=
  Parsed.mkDescriptor "backend-service" "acme" "backend-service" (Parsed.Text "1.0.0").
Definition parsed_backend_1_0_1 : Parsed.Descriptor :=
  Parsed.mkDescriptor "backend-service" "acme" "backend-service" (Parsed.Text "1.0.1").
Definition parsed_frontend_2_1_3 : Parsed.Descriptor :=
  Parsed.mkDescriptor "frontend-app" "acme" "frontend-app" (Parsed.Text "2.1.3").

(** A descriptor declared with [version: 2], which the parser reads as a
    number. *)
Definition parsed_backend_2 : Parsed.Descriptor :=
  Parsed.mkDescriptor "backend-service" "acme" "backend-service" (Parsed.NotText "2").

Definition document_of (repos : list Parsed.Descriptor) : Parsed.Document :=
  Parsed.mkDocument "backstage.io/v1alpha1" "BitbucketRepoManifest" "org-repos"
                    (Some (Parsed.mkDocumentSpec (Some repos))).

(** An environment whose manifest parses to [repos]. *)
Definition parsing (repos : list Parsed.Descriptor) : Parsed.Environment :=
  Parsed.mkEnvironment cfg
    (fun _ => Some (mkIntegration (Some "bot") (Some "secret")))
    (fun s => s)
    (fun _ _ => Responded (mkResponse true 200 "OK" "manifest"))
    (fun _ => Parsed.ParsedDocument (document_of repos)).

End Sample.

(** ** Lemmas on the table statements *)

Lemma key_is_true k r : key_is k r = true <-> repo_key r = k.
Proof. unfold key_is. apply String.eqb_eq. Qed.

Lemma key_is_false k r : key_is k r = false <-> repo_key r <> k.
Proof. unfold key_is. apply String.eqb_neq. Qed.

Lemma select_first_key k t r : select_first k t = Some r -> repo_key r = k.
Proof.
  unfold select_first. intros H. apply find_some in H.
  now apply key_is_true.
Qed.

Lemma select_first_none k t :
  select_first k t = None <-> existsb (key_is k) t = false.
Proof.
  unfold select_first. induction t as [|r t IH]; simpl.
  - tauto.
  - destruct (key_is k r); simpl; [split; discriminate | exact IH].
Qed.

(** Rewriting rows in place, keeping every key, commutes with [select]. *)
Lemma select_first_map k (f : Row -> Row) t :
  (forall r, repo_key (f r) = repo_key r) ->
  select_first k (map f t) = option_map f (select_first k t).
Proof.
  intros Hf. unfold select_first. induction t as [|r t IH]; simpl; [reflexivity|].
  unfold key_is at 1. rewrite Hf. fold (key_is k r).
  destruct (key_is k r); [reflexivity | exact IH].
Qed.

Lemma select_first_app_none k t t' :
  select_first k t = None -> select_first k (t ++ t')%list = select_first k t'.
Proof.
  unfold select_first. induction t as [|r t IH]; simpl; [reflexivity|].
  destruct (key_is k r); [discriminate | exact IH].
Qed.

Lemma select_first_app_some k t t' r :
  select_first k t = Some r -> select_first k (t ++ t')%list = Some r.
Proof.
  unfold select_first. induction t as [|r0 t IH]; simpl; [discriminate|].
  destruct (key_is k r0); [tauto | exact IH].
Qed.

Lemma select_insert_same now k ver t :
  select_first k (insert_on_conflict_merge now k ver t) =
  Some (mkRow k ver now
          (match select_first k t with
           | Some r => last_registered_at r
           | None => None
           end)).
Proof.
  unfold insert_on_conflict_merge.
  destruct (existsb (key_is k) t) eqn:E.
  - rewrite select_first_map by (intros r; destruct (key_is k r); reflexivity).
    destruct (select_first k t) as [r|] eqn:S.
    + simpl. pose proof (select_first_key _ _ S) as Hk.
      apply key_is_true in Hk. rewrite Hk. apply key_is_true in Hk.
      now rewrite Hk.
    + apply select_first_none in S. congruence.
  - apply select_first_none in E. rewrite E.
    rewrite select_first_app_none by assumption.
    unfold select_first. simpl. unfold key_is. simpl.
    now rewrite String.eqb_refl.
Qed.

Lemma select_insert_other now k ver t k' :
  k' <> k ->
  select_first k' (insert_on_conflict_merge now k ver t) = select_first k' t.
Proof.
  intros Hne. unfold insert_on_conflict_merge.
  destruct (existsb (key_is k) t).
  - rewrite select_first_map by (intros r; destruct (key_is k r); reflexivity).
    destruct (select_first k' t) as [r|] eqn:S; [|reflexivity].
    simpl. apply select_first_key in S.
    assert (key_is k r = false) as -> by (apply key_is_false; congruence).
    reflexivity.
  - destruct (select_first k' t) as [r|] eqn:S.
    + now apply select_first_app_some.
    + rewrite select_first_app_none by assumption.
      unfold select_first. simpl. unfold key_is. simpl.
      apply String.eqb_neq in Hne. rewrite String.eqb_sym. now rewrite Hne.
Qed.

Lemma select_update_same now k t :
  select_first k (update_registered now k t) =
  option_map (fun r => mkRow (repo_key r) (manifest_version r) (last_seen_at r) (Some now))
             (select_first k t).
Proof.
  unfold update_registered.
  rewrite select_first_map by (intros r; destruct (key_is k r); reflexivity).
  destruct (select_first k t) as [r|] eqn:S; [|reflexivity].
  simpl. apply select_first_key in S. apply key_is_true in S. now rewrite S.
Qed.

Lemma select_update_other now k t k' :
  k' <> k ->
  select_first k' (update_registered now k t) = select_first k' t.
Proof.
  intros Hne. unfold update_registered.
  rewrite select_first_map by (intros r; destruct (key_is k r); reflexivity).
  destruct (select_first k' t) as [r|] eqn:S; [|reflexivity].
  simpl. apply select_first_key in S.
  assert (key_is k r = false) as -> by (apply key_is_false; congruence).
  reflexivity.
Qed.

Lemma select_first_rows_of k t : select_first k t = hd_error (rows_of k t).
Proof.
  unfold select_first, rows_of. induction t as [|r t IH]; simpl; [reflexivity|].
  now destruct (key_is k r).
Qed.

(** Rewriting the rows of one key in place leaves the rows of the others. *)
Lemma rows_of_map_other k k' (f : Row -> Row) t :
  k' <> k ->
  (forall r, repo_key (f r) = repo_key r) ->
  (forall r, key_is k r = false -> f r = r) ->
  rows_of k' (map f t) = rows_of k' t.
Proof.
  intros Hne Hkey Hid. unfold rows_of.
  induction t as [|r t IH]; simpl; [reflexivity|].
  unfold key_is at 1. rewrite Hkey. fold (key_is k' r).
  destruct (key_is k' r) eqn:E; [|exact IH].
  rewrite IH. f_equal. apply Hid. apply key_is_true in E.
  apply key_is_false. congruence.
Qed.

Lemma rows_insert_other now k ver t k' :
  k' <> k ->
  rows_of k' (insert_on_conflict_merge now k ver t) = rows_of k' t.
Proof.
  intros Hne. unfold insert_on_conflict_merge.
  destruct (existsb (key_is k) t).
  - apply rows_of_map_other with (k := k); [assumption | |]; intros r;
      destruct (key_is k r); simpl; congruence.
  - unfold rows_of. rewrite filter_app. simpl. unfold key_is at 2. simpl.
    apply String.eqb_neq in Hne. rewrite String.eqb_sym, Hne.
    apply app_nil_r.
Qed.

Lemma rows_update_other now k t k' :
  k' <> k ->
  rows_of k' (update_registered now k t) = rows_of k' t.
Proof.
  intros Hne. unfold update_registered.
  apply rows_of_map_other with (k := k); [assumption | |]; intros r;
    destruct (key_is k r); simpl; congruence.
Qed.

(** An update of a key the table does not hold changes no row. *)
Lemma update_registered_absent now k t :
  select_first k t = None -> update_registered now k t = t.
Proof.
  unfold update_registered, select_first.
  induction t as [|r t IH]; simpl; [reflexivity|].
  destruct (key_is k r); [discriminate|].
  intros H. now rewrite IH.
Qed.

Lemma keys_insert_on_conflict_merge now k ver t :
  map repo_key (insert_on_conflict_merge now k ver t) =
  if existsb (key_is k) t then map repo_key t else (map repo_key t ++ [k])%list.
Proof.
  unfold insert_on_conflict_merge. destruct (existsb (key_is k) t).
  - rewrite map_map. apply map_ext. intros r. now destruct (key_is k r).
  - now rewrite map_app.
Qed.

Lemma keys_update_registered now k t :
  map repo_key (update_registered now k t) = map repo_key t.
Proof.
  unfold update_registered. rewrite map_map. apply map_ext.
  intros r. now destruct (key_is k r).
Qed.

Lemma existsb_key_is_in k t :
  existsb (key_is k) t = false -> ~ In k (map repo_key t).
Proof.
  intros E Hin. apply in_map_iff in Hin as (r & Hk & Hr).
  assert (existsb (key_is k) t = true); [|congruence].
  apply existsb_exists. exists r. split; [assumption | now apply key_is_true].
Qed.

Lemma primary_key_insert now k ver t :
  primary_key t -> primary_key (insert_on_conflict_merge now k ver t).
Proof.
  unfold primary_key. intros H. rewrite keys_insert_on_conflict_merge.
  destruct (existsb (key_is k) t) eqn:E; [assumption|].
  apply NoDup_app; [assumption | repeat constructor; simpl; tauto |].
  intros x Hx [<-|[]]. now apply (existsb_key_is_in _ _ E).
Qed.

Lemma primary_key_update now k t :
  primary_key t -> primary_key (update_registered now k t).
Proof. unfold primary_key. now rewrite keys_update_registered. Qed.

(** Under the primary key, the rows of a key are the one [select] finds. *)
Lemma primary_key_select k t :
  primary_key t ->
  filter (key_is k) t =
  match select_first k t with Some r => [r] | None => [] end.
Proof.
  unfold primary_key, select_first.
  induction t as [|r t IH]; simpl; [reflexivity|].
  intros H. inversion H as [|? ? Hnin Hnd]; subst.
  destruct (key_is k r) eqn:E.
  - f_equal. apply key_is_true in E. subst k.
    clear IH H Hnd. induction t as [|r' t IH]; simpl; [reflexivity|].
    simpl in Hnin. destruct (key_is (repo_key r) r') eqn:E'.
    + apply key_is_true in E'. tauto.
    + apply IH. tauto.
  - now apply IH.
Qed.

(** ** Lemmas on the monad *)

Lemma same_state_refl w : same_state w w.
Proof. now constructor. Qed.

Lemma same_state_sym w w' : same_state w w' -> same_state w' w.
Proof. intros []. now constructor. Qed.

Lemma same_state_trans w1 w2 w3 :
  same_state w1 w2 -> same_state w2 w3 -> same_state w1 w3.
Proof. intros [] []. constructor; congruence. Qed.

Lemma fault_free_same w w' : same_state w w' -> fault_free w -> fault_free w'.
Proof. unfold fault_free. intros [] H. congruence. Qed.

Lemma fault_free_tl w fs :
  fault_free w -> fs = tl (faults w) -> Forall (fun f => f = None) fs.
Proof.
  unfold fault_free. intros H ->. destruct (faults w); simpl; [constructor|].
  now inversion H.
Qed.

Lemma log_blind_ret {A} (a : A) : log_blind (ret a).
Proof. intros w w' H. now split. Qed.

Lemma log_blind_throw {A} e : log_blind (@throw A e).
Proof. intros w w' H. now split. Qed.

Lemma log_blind_logger lvl msg : log_blind (logger lvl msg).
Proof. intros w w' []. split; [reflexivity | now constructor]. Qed.

Lemma log_blind_bind {A B} (m : M A) (k : A -> M B) :
  log_blind m -> (forall a, log_blind (k a)) -> log_blind (bind m k).
Proof.
  intros Hm Hk w w' H. unfold bind.
  destruct (Hm w w' H) as [Hr Hs].
  destruct (m w) as [[a|e] w1], (m w') as [[a'|e'] w1'];
    simpl in Hr, Hs; try discriminate.
  - injection Hr as <-. now apply Hk.
  - injection Hr as <-. now split.
Qed.

Lemma log_blind_try_catch {A} (m : M A) h :
  log_blind m -> (forall e, log_blind (h e)) -> log_blind (try_catch m h).
Proof.
  intros Hm Hh w w' H. unfold try_catch.
  destruct (Hm w w' H) as [Hr Hs].
  destruct (m w) as [[a|e] w1], (m w') as [[a'|e'] w1'];
    simpl in Hr, Hs; try discriminate.
  - injection Hr as <-. now split.
  - injection Hr as <-. now apply Hh.
Qed.

Lemma log_blind_db_call {A} stmt (run : Time -> Table -> A * Table) :
  log_blind (db_call stmt run).
Proof.
  intros w w' []. unfold db_call.
  repeat match goal with H : _ w = _ w' |- _ => rewrite <- H; clear H end.
  destruct (faults w) as [|[e|] fs]; simpl;
    try destruct (run (clock w) (table w)); simpl;
    (split; [reflexivity | now constructor]).
Qed.

Lemma log_blind_applyMutation mu : log_blind (applyMutation mu).
Proof.
  intros w w' []. unfold applyMutation.
  repeat match goal with H : _ w = _ w' |- _ => rewrite <- H; clear H end.
  destruct (faults w) as [|[e|] fs]; simpl;
    (split; [reflexivity | now constructor]).
Qed.

Create HintDb blind.
#[local] Hint Resolve log_blind_ret log_blind_throw log_blind_logger
  log_blind_db_call log_blind_applyMutation : blind.

Ltac blind :=
  repeat first
    [ apply log_blind_bind; [|intros ?]
    | apply log_blind_try_catch; [|intros ?]
    | solve [auto with blind]
    | match goal with |- log_blind (match ?x with _ => _ end) => destruct x end
    | match goal with |- log_blind (if ?x then _ else _) => destruct x end ].

Lemma log_blind_get k : log_blind (VersionStore.get k).
Proof. unfold VersionStore.get. blind. Qed.

Lemma log_blind_upsertSeen k v : log_blind (VersionStore.upsertSeen k v).
Proof. unfold VersionStore.upsertSeen. blind. Qed.

Lemma log_blind_markRegistered k : log_blind (VersionStore.markRegistered k).
Proof. unfold VersionStore.markRegistered. blind. Qed.

#[local] Hint Resolve log_blind_get log_blind_upsertSeen
  log_blind_markRegistered : blind.

Lemma log_blind_processRepository env repo :
  log_blind (processRepository env repo).
Proof. unfold processRepository. blind. Qed.

#[local] Hint Resolve log_blind_processRepository : blind.

Lemma log_blind_reconcile env repos acc : log_blind (reconcile env repos acc).
Proof.
  revert acc. induction repos as [|repo rest IH]; intros acc; simpl; blind.
Qed.

Lemma log_blind_fetchManifest env : log_blind (fetchManifest env).
Proof. unfold fetchManifest. blind. Qed.

(** [fetchManifest] touches nothing but the log. *)
Lemma log_only_fetchManifest env : log_only (fetchManifest env).
Proof.
  intros w. unfold fetchManifest, bind, logger, throw, ret.
  repeat match goal with
         | |- context [match ?x with _ => _ end] => destruct x
         end; simpl; now constructor.
Qed.

(** ** One descriptor *)

Local Opaque String.append.

(** Unfolds the monad and enumerates the outcomes of the (at most three)
    statements a descriptor causes. *)
Ltac run_descriptor w :=
  unfold processRepository, VersionStore.get, VersionStore.upsertSeen,
    VersionStore.markRegistered, bind, ret, logger, db_call;
  simpl;
  destruct (faults w) as [|[?|] [|[?|] [|[?|] ?]]]; simpl;
  try (destruct (select_first _ (table w)) as [?|] eqn:?; simpl);
  try (destruct (String.eqb _ _) eqn:?; simpl).

(** The version the table holds for a key, as [get] reports it. *)
Lemma version_unchanged_classify t repo :
  version_unchanged
    (match select_first (repoKey_of repo) t with
     | Some row => Some (mkRecord (repo_key row) (manifest_version row)
                                  (last_seen_at row) (last_registered_at row))
     | None => None
     end) repo
  = negb (needs_publication
            (classify (known_of t (repoKey_of repo)) (version repo))).
Proof.
  unfold known_of, classify, version_unchanged.
  destruct (select_first (repoKey_of repo) t) as [row|]; simpl; [|reflexivity].
  now destruct (String.eqb (manifest_version row) (version repo)).
Qed.

(** A descriptor never reaches the sink or the connection by itself. *)
Lemma processRepository_sink env repo w :
  sink (snd (processRepository env repo w)) = sink w /\
  connected (snd (processRepository env repo w)) = connected w.
Proof. run_descriptor w; now split. Qed.

(** Every statement a descriptor causes is about its own key. *)
Lemma processRepository_trace env repo w :
  exists stmts,
    db_trace (snd (processRepository env repo w)) = (db_trace w ++ stmts)%list /\
    Forall (fun s => stmt_key s = repoKey_of repo) stmts.
Proof.
  run_descriptor w; rewrite <- ?app_assoc; simpl;
    eexists; (split; [reflexivity | repeat constructor]).
Qed.

(** The rows of every other key are as they were. *)
Lemma processRepository_other_keys env repo w k :
  k <> repoKey_of repo ->
  rows_of k (table (snd (processRepository env repo w))) = rows_of k (table w).
Proof.
  intros Hk. run_descriptor w;
    rewrite ?rows_update_other, ?rows_insert_other by assumption;
    reflexivity.
Qed.

Lemma processRepository_primary_key env repo w :
  primary_key (table w) ->
  primary_key (table (snd (processRepository env repo w))).
Proof.
  intros H. run_descriptor w;
    auto using primary_key_insert, primary_key_update.
Qed.

(** An Unchanged descriptor costs one [select] and changes no row. *)
Lemma processRepository_unchanged env repo w row :
  hd None (faults w) = None ->
  select_first (repoKey_of repo) (table w) = Some row ->
  manifest_version row = version repo ->
  exists w',
    processRepository env repo w
      = (Ok (mkResult (createLocationEntity env repo) false), w') /\
    table w' = table w /\
    db_trace w' = (db_trace w ++ [SelectFirst (repoKey_of repo)])%list /\
    clock w' = S (clock w) /\
    faults w' = tl (faults w) /\
    sink w' = sink w /\
    connected w' = connected w.
Proof.
  intros Hf Hs Hv. apply String.eqb_eq in Hv.
  unfold processRepository, VersionStore.get, bind, ret, logger, db_call.
  simpl. rewrite Hs.
  destruct (faults w) as [|[e|] fs]; simpl in *; try discriminate;
    rewrite Hv; simpl; eexists; repeat split.
Qed.

(** A New or Changed descriptor, when the store answers, costs the three
    statements in order. *)
Lemma processRepository_changed env repo w :
  fault_free w ->
  needs_publication
    (classify (known_of (table w) (repoKey_of repo)) (version repo)) = true ->
  exists w',
    processRepository env repo w
      = (Ok (mkResult (createLocationEntity env repo) true), w') /\
    table w' =
      update_registered (S (S (clock w))) (repoKey_of repo)
        (insert_on_conflict_merge (S (clock w)) (repoKey_of repo) (version repo)
           (table w)) /\
    db_trace w' =
      (db_trace w ++ [SelectFirst (repoKey_of repo);
                      InsertOnConflictMerge (repoKey_of repo) (version repo);
                      UpdateRegistered (repoKey_of repo)])%list /\
    clock w' = S (S (S (clock w))) /\
    fault_free w' /\
    sink w' = sink w /\
    connected w' = connected w.
Proof.
  unfold fault_free. intros Hf Hc.
  pose proof (version_unchanged_classify (table w) repo) as Hu.
  rewrite Hc in Hu. simpl in Hu.
  unfold processRepository, VersionStore.get, VersionStore.upsertSeen,
    VersionStore.markRegistered, bind, ret, logger, db_call.
  simpl.
  destruct (faults w) as [|f1 [|f2 [|f3 fs]]]; simpl;
    repeat match goal with
           | H : Forall _ (_ :: _) |- _ => inversion H; clear H; subst
           end; simpl;
    destruct (select_first (repoKey_of repo) (table w)) as [row|];
    simpl in *; try rewrite Hu; simpl; rewrite <- ?app_assoc; simpl;
    eexists; repeat split; auto.
Qed.

(** ** Lemmas on the specification's view *)

Lemma classify_unchanged_iff t k ver :
  needs_publication (classify (known_of t k) ver) = false <->
  exists row, select_first k t = Some row /\ manifest_version row = ver.
Proof.
  unfold known_of, classify.
  destruct (select_first k t) as [row|]; simpl.
  - destruct (String.eqb_spec (manifest_version row) ver); simpl; split;
      try discriminate; eauto.
    intros (row' & [= <-] & ?). contradiction.
  - split; [discriminate | intros (? & [=] & _)].
Qed.

Lemma changed_repos_ext known known' repos :
  (forall k, known k = known' k) ->
  changed_repos known repos = changed_repos known' repos.
Proof.
  revert known known'. induction repos as [|repo rest IH]; intros kn kn' H;
    simpl; [reflexivity|].
  rewrite <- H.
  destruct (needs_publication _); [f_equal|]; apply IH; [|assumption].
  intros k. unfold record_version. now rewrite H.
Qed.

Lemma known_after_ext known known' repos :
  (forall k, known k = known' k) ->
  forall k, known_after known repos k = known_after known' repos k.
Proof.
  revert known known'. induction repos as [|repo rest IH]; intros kn kn' H;
    simpl; [assumption|].
  rewrite <- H.
  destruct (needs_publication _); apply IH; [|assumption].
  intros k. unfold record_version. now rewrite H.
Qed.

(** The table after the two writes of a New or Changed descriptor knows its
    version and, for the other keys, what it knew. *)
Lemma known_of_changed t1 t2 k ver t k' :
  known_of (update_registered t2 k (insert_on_conflict_merge t1 k ver t)) k'
  = record_version k ver (known_of t) k'.
Proof.
  unfold known_of, record_version.
  destruct (String.eqb_spec k' k) as [->|Hne].
  - now rewrite select_update_same, select_insert_same.
  - now rewrite select_update_other, select_insert_other.
Qed.

Lemma find_app {A} (p : A -> bool) l l' :
  find p (l ++ l')%list =
  match find p l with Some x => Some x | None => find p l' end.
Proof.
  induction l as [|x l IH]; simpl; [reflexivity|].
  now destruct (p x).
Qed.

(** After a pass every key of the manifest is known at the version of its
    last descriptor. *)
Lemma known_after_last known repos k r :
  last_with_key k repos = Some r ->
  known_after known repos k = Some (version r).
Proof.
  unfold last_with_key. revert known.
  induction repos as [|repo rest IH]; intros kn; simpl; [discriminate|].
  intros H.
  destruct (find (fun r0 => String.eqb (repoKey_of r0) k) (rev rest)) as [r'|] eqn:F.
  - rewrite (find_app _ _ _) in H. rewrite F in H.
    destruct (needs_publication _); now apply IH.
  - rewrite (find_app _ _ _) in H. rewrite F in H. simpl in H.
    destruct (String.eqb_spec (repoKey_of repo) k) as [<-|]; [|discriminate].
    injection H as <-.
    assert (Hrest : forall kn', kn' (repoKey_of repo) = Some (version repo) ->
              known_after kn' rest (repoKey_of repo) = Some (version repo)).
    { clear IH. assert (Hn : forall x, In x rest -> repoKey_of x <> repoKey_of repo).
      { intros x Hx Heq. apply in_rev in Hx.
        apply (find_none _ _ F) in Hx. apply String.eqb_neq in Hx. contradiction. }
      clear F. induction rest as [|x rest IH]; intros kn' Hk; simpl; [assumption|].
      destruct (needs_publication _).
      - apply IH; [intros; apply Hn; now right|].
        unfold record_version.
        destruct (String.eqb_spec (repoKey_of repo) (repoKey_of x)) as [E|_];
          [|assumption].
        exfalso. apply (Hn x); [now left | congruence].
      - apply IH; [intros; apply Hn; now right | assumption]. }
    destruct (needs_publication _) eqn:C.
    + apply Hrest. unfold record_version. now rewrite String.eqb_refl.
    + apply Hrest. unfold classify in C.
      destruct (kn (repoKey_of repo)) as [pv|]; [|discriminate].
      destruct (String.eqb_spec pv (version repo)); [congruence | discriminate].
Qed.

Lemma last_with_key_exists k repos :
  In k (map repoKey_of repos) ->
  exists r, last_with_key k repos = Some r /\ In r repos /\ repoKey_of r = k.
Proof.
  intros Hin. apply in_map_iff in Hin as (x & Hk & Hx).
  unfold last_with_key.
  destruct (find (fun r => String.eqb (repoKey_of r) k) (rev repos)) as [r|] eqn:F.
  - apply find_some in F as [Hr Hk']. apply String.eqb_eq in Hk'.
    exists r. repeat split; [now apply in_rev | assumption].
  - apply in_rev in Hx. apply (find_none _ _ F) in Hx.
    apply String.eqb_neq in Hx. contradiction.
Qed.

Lemma last_with_key_cons k repo rest :
  last_with_key k (repo :: rest) =
  match last_with_key k rest with
  | Some r => Some r
  | None => if String.eqb (repoKey_of repo) k then Some repo else None
  end.
Proof.
  unfold last_with_key. simpl. rewrite find_app.
  now destruct (find _ (rev rest)).
Qed.

(** A manifest whose descriptors agree key by key is known, after a pass,
    exactly as it declares. *)
Lemma known_after_consistent known repos r :
  consistent repos -> In r repos ->
  known_after known repos (repoKey_of r) = Some (version r).
Proof.
  intros Hc Hr.
  destruct (last_with_key_exists (repoKey_of r) repos) as (r' & Hl & Hin & Hk).
  { now apply in_map. }
  rewrite (known_after_last _ _ _ Hl). f_equal. now apply Hc.
Qed.

(** Nothing is New or Changed when every descriptor is known as declared. *)
Lemma changed_repos_nil known repos :
  (forall r, In r repos -> known (repoKey_of r) = Some (version r)) ->
  changed_repos known repos = [] /\
  forall k, known_after known repos k = known k.
Proof.
  induction repos as [|repo rest IH]; intros H; simpl; [now split|].
  rewrite (H repo) by now left.
  unfold classify. rewrite String.eqb_refl. simpl.
  apply IH. intros r Hr. apply H. now right.
Qed.

(** With pairwise distinct keys every descriptor is classified against the
    versions known when the pass starts. *)
Lemma changed_repos_distinct_keys known repos :
  NoDup (map repoKey_of repos) ->
  changed_repos known repos =
  filter (fun r => needs_publication
                     (classify (known (repoKey_of r)) (version r))) repos.
Proof.
  revert known. induction repos as [|repo rest IH]; intros kn Hnd; simpl;
    [reflexivity|].
  inversion Hnd as [|? ? Hnin Hnd']; subst.
  destruct (needs_publication (classify (kn (repoKey_of repo)) (version repo)));
    [f_equal|]; rewrite IH by assumption; [|reflexivity].
  apply filter_ext_in. intros r Hr. unfold record_version.
  destruct (String.eqb_spec (repoKey_of r) (repoKey_of repo)) as [E|_];
    [|reflexivity].
  exfalso. apply Hnin. rewrite <- E. now apply in_map.
Qed.


(** ** The loop over the manifest *)

Section Loop.

Variable env : Env.

Lemma reconcile_app pre post acc w :
  reconcile env (pre ++ post)%list acc w =
  match reconcile env pre acc w with
  | (Ok locs, w1) => reconcile env post locs w1
  | (Throw e, w1) => (Throw e, w1)
  end.
Proof.
  revert acc w. induction pre as [|repo pre IH]; intros acc w; simpl;
    [reflexivity|].
  unfold bind. destruct (processRepository env repo w) as [[res|e] w1];
    [apply IH | reflexivity].
Qed.

Lemma reconcile_sink repos acc w :
  sink (snd (reconcile env repos acc w)) = sink w /\
  connected (snd (reconcile env repos acc w)) = connected w.
Proof.
  revert acc w. induction repos as [|repo rest IH]; intros acc w; simpl;
    [now split|].
  unfold bind. pose proof (processRepository_sink env repo w) as [Hs Hc].
  destruct (processRepository env repo w) as [[res|e] w1]; simpl in *.
  - destruct (IH (if shouldRegister res then (acc ++ [location res])%list else acc) w1).
    split; congruence.
  - now split.
Qed.

(** Every statement of the loop is about a key of the manifest. *)
Lemma reconcile_trace repos acc w :
  exists stmts,
    db_trace (snd (reconcile env repos acc w)) = (db_trace w ++ stmts)%list /\
    Forall (fun s => In (stmt_key s) (map repoKey_of repos)) stmts.
Proof.
  revert acc w. induction repos as [|repo rest IH]; intros acc w; simpl.
  - exists []. now rewrite app_nil_r.
  - unfold bind.
    destruct (processRepository_trace env repo w) as (s1 & Ht & Hk).
    assert (Hk' : Forall (fun s => repoKey_of repo = stmt_key s
                                   \/ In (stmt_key s) (map repoKey_of rest)) s1).
    { eapply Forall_impl; [|exact Hk]. simpl. intros; left; congruence. }
    destruct (processRepository env repo w) as [[res|e] w1]; simpl in *.
    + destruct (IH (if shouldRegister res then (acc ++ [location res])%list else acc) w1)
        as (s2 & Ht2 & Hk2).
      exists (s1 ++ s2)%list. split.
      * rewrite Ht2, Ht. now rewrite app_assoc.
      * apply Forall_app. split; [assumption|].
        eapply Forall_impl; [|exact Hk2]. simpl. tauto.
    + exists s1. now split.
Qed.

(** The rows of the keys the manifest does not list are as they were,
    whatever the store answers. *)
Lemma reconcile_other_keys repos acc w k :
  ~ In k (map repoKey_of repos) ->
  rows_of k (table (snd (reconcile env repos acc w))) = rows_of k (table w).
Proof.
  revert acc w. induction repos as [|repo rest IH]; intros acc w Hk; simpl;
    [reflexivity|].
  simpl in Hk. unfold bind.
  assert (H1 : k <> repoKey_of repo) by (intros ->; tauto).
  pose proof (processRepository_other_keys env repo w H1) as Ho.
  destruct (processRepository env repo w) as [[res|e] w1]; simpl in *;
    [|assumption].
  rewrite IH by tauto. assumption.
Qed.

Lemma reconcile_primary_key repos acc w :
  primary_key (table w) ->
  primary_key (table (snd (reconcile env repos acc w))).
Proof.
  revert acc w. induction repos as [|repo rest IH]; intros acc w Hp; simpl;
    [assumption|].
  unfold bind. pose proof (processRepository_primary_key env repo w Hp) as H1.
  destruct (processRepository env repo w) as [[res|e] w1]; simpl in *;
    [now apply IH | assumption].
Qed.

(** A failing descriptor ends the loop: the descriptors after it are not
    looked at. *)
Lemma reconcile_throw pre repo post acc locs w w1 e w2 :
  reconcile env pre acc w = (Ok locs, w1) ->
  processRepository env repo w1 = (Throw e, w2) ->
  reconcile env (pre ++ repo :: post)%list acc w = (Throw e, w2).
Proof.
  intros Hpre Hrepo. rewrite reconcile_app, Hpre. simpl.
  unfold bind. now rewrite Hrepo.
Qed.

(** The loop when the store answers every statement: the locations are those
    of the New and Changed descriptors, and the table changes for their keys
    only. *)
Lemma reconcile_fault_free repos : forall acc w,
  fault_free w ->
  exists w',
    reconcile env repos acc w
      = (Ok (acc ++ map (createLocationEntity env)
                        (changed_repos (known_of (table w)) repos))%list, w') /\
    fault_free w' /\
    clock w <= clock w' /\
    (forall k, known_of (table w') k = known_after (known_of (table w)) repos k) /\
    (forall k,
       ~ In k (map repoKey_of (changed_repos (known_of (table w)) repos)) ->
       rows_of k (table w') = rows_of k (table w)) /\
    (forall k r,
       last_with_key k (changed_repos (known_of (table w)) repos) = Some r ->
       exists seen registered,
         select_first k (table w')
           = Some (mkRow k (version r) seen (Some registered)) /\
         clock w < seen /\ seen < registered /\ registered < clock w').
Proof.
  induction repos as [|repo rest IH]; intros acc w Hf; simpl.
  - exists w. rewrite app_nil_r. repeat split; auto. discriminate.
  - unfold bind.
    destruct (needs_publication
                (classify (known_of (table w) (repoKey_of repo)) (version repo)))
      eqn:C.
    + destruct (processRepository_changed env repo Hf C)
        as (w1 & Hrun & Ht & _ & Hc & Hf1 & _).
      rewrite Hrun. simpl.
      assert (Hkn : forall k, known_of (table w1) k
                = record_version (repoKey_of repo) (version repo)
                    (known_of (table w)) k).
      { intros k. rewrite Ht. apply known_of_changed. }
      destruct (IH (acc ++ [createLocationEntity env repo])%list w1 Hf1)
        as (w' & Hrun' & Hf' & Hc' & Hk' & Ho' & Hl').
      rewrite (changed_repos_ext _ _ rest Hkn) in Hrun', Ho', Hl'.
      exists w'. rewrite Hrun', <- app_assoc. simpl.
      repeat split; [assumption | lia | | |].
      * intros k. rewrite Hk'. now apply known_after_ext.
      * intros k Hn. rewrite Ho' by tauto. rewrite Ht.
        assert (k <> repoKey_of repo) by (intros ->; tauto).
        now rewrite rows_update_other, rows_insert_other.
      * intros k r. rewrite last_with_key_cons.
        destruct (last_with_key k (changed_repos _ rest)) as [r'|] eqn:L.
        -- intros [= <-]. destruct (Hl' k r' L) as (s & g & Hs & ? & ? & ?).
           exists s, g. repeat split; auto; lia.
        -- destruct (String.eqb_spec (repoKey_of repo) k) as [<-|];
             [|discriminate].
           intros [= <-].
           exists (S (clock w)), (S (S (clock w))).
           repeat split; try lia.
           rewrite select_first_rows_of, Ho', <- select_first_rows_of.
           ++ rewrite Ht. now rewrite select_update_same, select_insert_same.
           ++ intros Hin. apply last_with_key_exists in Hin as (? & ? & _).
              congruence.
    + pose proof C as C'. apply classify_unchanged_iff in C' as (row & Hs & Hv).
      assert (Hh : hd None (faults w) = None).
      { unfold fault_free in Hf. destruct (faults w); [reflexivity|].
        now inversion Hf. }
      destruct (processRepository_unchanged env repo w Hh Hs Hv)
        as (w1 & Hrun & Ht & _ & Hc & Hfs & _).
      rewrite Hrun. simpl.
      assert (Hf1 : fault_free w1).
      { unfold fault_free. rewrite Hfs. now apply (fault_free_tl Hf). }
      destruct (IH acc w1 Hf1) as (w' & Hrun' & Hf' & Hc' & Hk' & Ho' & Hl').
      rewrite Ht in *.
      exists w'. repeat split; auto; try lia.
      intros k r L. destruct (Hl' k r L) as (s & g & Hs' & ? & ? & ?).
      exists s, g. repeat split; auto; lia.
Qed.

End Loop.

(** ** The pass *)

Section Pass.

Variable env : Env.

(** What [fetchManifest] returns depends on the environment only. *)
Lemma fetchManifest_result w w' :
  fst (fetchManifest env w) = fst (fetchManifest env w').
Proof.
  unfold fetchManifest, bind, logger, throw, ret.
  repeat match goal with
         | |- context [match ?x with _ => _ end] => destruct x
         end; reflexivity.
Qed.

Lemma fetch_failure_throws w :
  fetch_failure env -> exists e, fst (fetchManifest env w) = Throw e.
Proof.
  intros [Hi | c e Hi Hf | c r Hi Hf Hok | c r m Hi Hf Hok Hy Hs
          | c r e Hi Hf Hok Hy | c r Hi Hf Hok Hy];
    unfold fetchManifest, bind, logger, throw, ret; simpl;
    rewrite Hi; simpl; eauto; rewrite Hf; simpl; eauto;
    rewrite Hok; simpl; eauto; rewrite Hy; simpl; eauto.
  destruct Hs as [-> | ->]; simpl; eauto.
Qed.


(** A failed fetch ends [discover] with the state it started in. *)
Lemma discover_fetch_throws w e :
  connected w = true ->
  fst (fetchManifest env w) = Throw e ->
  exists w', discover env w = (Throw e, w') /\ same_state w w'.
Proof.
  intros Hc Hf. unfold discover. rewrite Hc.
  change (negb true) with false. cbv iota.
  unfold bind at 1. unfold logger at 1. cbv beta iota.
  match goal with |- context [try_catch _ _ ?w0] => set (wA := w0) end.
  assert (HA : same_state w wA) by now constructor.
  unfold try_catch. unfold bind at 1.
  destruct (log_blind_fetchManifest env HA) as [Hr Hs].
  pose proof (log_only_fetchManifest env wA) as Ho.
  rewrite Hf in Hr.
  destruct (fetchManifest env wA) as [[m'|e'] wB]; simpl in Hr, Hs, Ho;
    [discriminate|].
  injection Hr as <-.
  unfold bind, logger, throw. cbv beta iota.
  eexists. split; [reflexivity|].
  apply (same_state_trans HA). apply (same_state_trans Ho). now constructor.
Qed.

(** After a successful fetch, [discover] is its loop followed by [publish],
    logging apart. *)
Lemma discover_after_fetch w m r w2 :
  connected w = true ->
  fst (fetchManifest env w) = Ok m ->
  reconcile env (manifest_repositories m) [] w = (r, w2) ->
  exists w',
    discover env w = (fst (publish r w2), w') /\
    same_state (snd (publish r w2)) w'.
Proof.
  intros Hc Hf Hrec. unfold discover. rewrite Hc.
  change (negb true) with false. cbv iota.
  unfold bind at 1. unfold logger at 1. cbv beta iota.
  match goal with |- context [try_catch _ _ ?w0] => set (wA := w0) end.
  assert (HA : same_state w wA) by now constructor.
  unfold try_catch. unfold bind at 1.
  destruct (log_blind_fetchManifest env HA) as [Hr Hs].
  pose proof (log_only_fetchManifest env wA) as Ho.
  rewrite Hf in Hr.
  destruct (fetchManifest env wA) as [[m'|e'] wB]; simpl in Hr, Hs, Ho;
    [|discriminate].
  injection Hr as <-.
  unfold bind at 1. unfold logger at 1. cbv beta iota.
  match goal with |- context [bind (reconcile _ _ _) _ ?w0] => set (wC := w0) end.
  assert (HC : same_state w wC).
  { apply (same_state_trans HA). apply (same_state_trans Ho). now constructor. }
  destruct (log_blind_reconcile env (manifest_repositories m) [] HC) as [Hr2 Hs2].
  rewrite Hrec in Hr2, Hs2. simpl in Hr2, Hs2.
  unfold bind at 1.
  destruct (reconcile env (manifest_repositories m) [] wC) as [r' wD].
  simpl in Hr2, Hs2. subst r'.
  destruct r as [locs|e]; simpl.
  - destruct (Nat.ltb 0 (List.length locs)).
    + destruct (log_blind_applyMutation (delta_mutation locs) Hs2) as [Hr3 Hs3].
      unfold bind.
      destruct (applyMutation (delta_mutation locs) wD) as [[[]|e] wE];
        destruct (applyMutation (delta_mutation locs) w2) as [[[]|e2] w3];
        simpl in *; try discriminate.
      * eexists. split; [reflexivity|].
        apply (same_state_trans Hs3). now constructor.
      * injection Hr3 as <-. eexists. split; [reflexivity|].
        apply (same_state_trans Hs3). now constructor.
    + eexists. split; [reflexivity|].
      apply (same_state_trans Hs2). now constructor.
  - unfold bind, logger, throw. cbv beta iota. eexists. split; [reflexivity|].
    apply (same_state_trans Hs2). now constructor.
Qed.

(** A provider that was never connected does nothing. *)
Lemma discover_not_connected w :
  connected w = false ->
  discover env w = (Throw (new_Error "Provider not connected"), w).
Proof. intros Hc. unfold discover. now rewrite Hc. Qed.

Lemma applyMutation_fault_free mu w :
  fault_free w ->
  exists w',
    applyMutation mu w = (Ok tt, w') /\
    sink w' = (sink w ++ [mu])%list /\
    table w' = table w /\ clock w' = clock w /\ db_trace w' = db_trace w /\
    connected w' = connected w /\ fault_free w'.
Proof.
  unfold fault_free, applyMutation. intros Hf.
  destruct (faults w) as [|[e|] fs]; simpl.
  - eexists. repeat split. simpl. constructor.
  - inversion Hf. discriminate.
  - eexists. repeat split. simpl. now inversion Hf.
Qed.

(** Every mutation [publish] hands over is a delta without removals. *)
Lemma publish_sink r w :
  exists new,
    sink (snd (publish r w)) = (sink w ++ new)%list /\
    Forall (fun mu => mutation_type mu = "delta" /\ removed mu = []) new /\
    table (snd (publish r w)) = table w /\
    db_trace (snd (publish r w)) = db_trace w.
Proof.
  destruct r as [locs|e]; simpl.
  - destruct (Nat.ltb 0 (List.length locs)); simpl.
    + unfold applyMutation. destruct (faults w) as [|[e|] fs]; simpl.
      * exists [delta_mutation locs]. repeat split. repeat constructor.
      * exists []. rewrite app_nil_r. repeat split. constructor.
      * exists [delta_mutation locs]. repeat split. repeat constructor.
    + exists []. rewrite app_nil_r. repeat split. constructor.
  - exists []. rewrite app_nil_r. repeat split. constructor.
Qed.

(** A loop over descriptors that are all recorded as declared reads each key
    once and writes nothing. *)
Lemma reconcile_all_unchanged repos : forall acc w,
  fault_free w ->
  (forall r, In r repos ->
     exists row, select_first (repoKey_of r) (table w) = Some row /\
                 manifest_version row = version r) ->
  exists w',
    reconcile env repos acc w = (Ok acc, w') /\
    table w' = table w /\
    db_trace w' = (db_trace w ++ map (fun r => SelectFirst (repoKey_of r)) repos)%list /\
    faults w' = skipn (List.length repos) (faults w) /\
    sink w' = sink w /\
    connected w' = connected w /\
    fault_free w'.
Proof.
  induction repos as [|repo rest IH]; intros acc w Hf Hall; simpl.
  - exists w. rewrite app_nil_r. repeat split; auto.
  - destruct (Hall repo (or_introl eq_refl)) as (row & Hs & Hv).
    assert (Hh : hd None (faults w) = None).
    { unfold fault_free in Hf. destruct (faults w); [reflexivity|].
      now inversion Hf. }
    destruct (processRepository_unchanged env repo w Hh Hs Hv)
      as (w1 & Hrun & Ht & Htr & Hc & Hfs & Hsk & Hcn).
    unfold bind. rewrite Hrun. simpl.
    assert (Hf1 : fault_free w1).
    { unfold fault_free. rewrite Hfs. now apply (fault_free_tl Hf). }
    destruct (IH acc w1 Hf1) as (w' & Hrun' & Ht' & Htr' & Hfs' & Hsk' & Hcn' & Hf').
    { intros r Hr. rewrite Ht. apply Hall. now right. }
    exists w'. repeat split; try congruence.
    + rewrite Htr', Htr, <- app_assoc. reflexivity.
    + rewrite Hfs', Hfs. destruct (faults w); simpl; [apply skipn_nil | reflexivity].
Qed.

End Pass.

(** ** The version store *)

Local Transparent String.append.

(** C6. [upsertSeen(repoKey, version)], when the database answers: without a
    row for [repoKey] it appends one with [manifest_version = version],
    [last_seen_at = now] and [last_registered_at = null]; with a row it
    rewrites [manifest_version] and [last_seen_at] in place and keeps the row's
    [last_registered_at]; the rows of every other key are untouched, and the
    table still has exactly one row for [repoKey] and no duplicate key. *)
Theorem upsertSeen_inserts_or_merges k ver w :
  hd None (faults w) = None ->
  primary_key (table w) ->
  exists w',
    VersionStore.upsertSeen k ver w = (Ok tt, w') /\
    (select_first k (table w) = None ->
       table w' = (table w ++ [mkRow k ver (clock w) None])%list) /\
    (forall row, select_first k (table w) = Some row ->
       List.length (table w') = List.length (table w) /\
       rows_of k (table w') = [mkRow k ver (clock w) (last_registered_at row)]) /\
    rows_of k (table w') =
      [mkRow k ver (clock w)
             (match select_first k (table w) with
              | Some row => last_registered_at row
              | None => None
              end)] /\
    (forall k', k' <> k -> rows_of k' (table w') = rows_of k' (table w)) /\
    primary_key (table w').
Proof.
  intros Hf Hpk.
  assert (Hrows : rows_of k (insert_on_conflict_merge (clock w) k ver (table w)) =
                  [mkRow k ver (clock w)
                         (match select_first k (table w) with
                          | Some row => last_registered_at row
                          | None => None
                          end)]).
  { unfold rows_of. rewrite primary_key_select by now apply primary_key_insert.
    now rewrite select_insert_same. }
  unfold VersionStore.upsertSeen, bind, db_call, logger.
  destruct (faults w) as [|[e|] fs]; simpl in Hf; try discriminate; simpl;
    (eexists; split; [reflexivity|]; simpl;
     repeat split;
     [ intros Hn; unfold insert_on_conflict_merge;
       apply select_first_none in Hn; now rewrite Hn
     | unfold insert_on_conflict_merge;
       destruct (existsb (key_is k) (table w)) eqn:E;
       [ apply length_map
       | apply select_first_none in E; congruence ]
     | rewrite Hrows; now rewrite H
     | exact Hrows
     | intros k' Hk'; now apply rows_insert_other
     | now apply primary_key_insert ]).
Qed.

Lemma upsertSeen_inserts_or_merges_witness :
  exists w',
    VersionStore.upsertSeen "acme/backend-service" "1.0.1" Sample.seen_backend
      = (Ok tt, w') /\
    (select_first "acme/backend-service" (table Sample.seen_backend) = None ->
       table w' = (table Sample.seen_backend
                     ++ [mkRow "acme/backend-service" "1.0.1"
                               (clock Sample.seen_backend) None])%list) /\
    (forall row,
       select_first "acme/backend-service" (table Sample.seen_backend) = Some row ->
       List.length (table w') = List.length (table Sample.seen_backend) /\
       rows_of "acme/backend-service" (table w')
         = [mkRow "acme/backend-service" "1.0.1" (clock Sample.seen_backend)
                  (last_registered_at row)]) /\
    rows_of "acme/backend-service" (table w') =
      [mkRow "acme/backend-service" "1.0.1" (clock Sample.seen_backend)
             (match select_first "acme/backend-service" (table Sample.seen_backend) with
              | Some row => last_registered_at row
              | None => None
              end)] /\
    (forall k', k' <> "acme/backend-service" ->
       rows_of k' (table w') = rows_of k' (table Sample.seen_backend)) /\
    primary_key (table w').
Proof.
  apply (@upsertSeen_inserts_or_merges
           "acme/backend-service" "1.0.1" Sample.seen_backend).
  - reflexivity.
  - unfold primary_key. simpl. constructor; [intros [] | constructor].
Defined.

(** The merge keeps a registration time recorded earlier. *)
Example upsertSeen_keeps_lastRegisteredAt :
  table (snd (VersionStore.upsertSeen "acme/backend-service" "1.0.1"
                Sample.seen_backend))
  = [mkRow "acme/backend-service" "1.0.1" 10 (Some 2)].
Proof. reflexivity. Qed.

(** C7, as the code has it.  [markRegistered(repoKey)], when the database
    answers, succeeds: a row for [repoKey] gets [last_registered_at = now] and
    nothing else changes; without a row for [repoKey] the table is left as it
    is and no error is raised. *)
Theorem markRegistered_updates_or_skips k w :
  hd None (faults w) = None ->
  exists w',
    VersionStore.markRegistered k w = (Ok tt, w') /\
    select_first k (table w') =
      option_map (fun row => mkRow (repo_key row) (manifest_version row)
                                   (last_seen_at row) (Some (clock w)))
                 (select_first k (table w)) /\
    (select_first k (table w) = None -> table w' = table w) /\
    (forall k', k' <> k -> rows_of k' (table w') = rows_of k' (table w)).
Proof.
  intros Hf. unfold VersionStore.markRegistered, bind, db_call, logger.
  destruct (faults w) as [|[e|] fs]; simpl in Hf; try discriminate; simpl;
    (eexists; split; [reflexivity|]; simpl; repeat split;
     [ apply select_update_same
     | apply update_registered_absent
     | intros k' Hk'; now apply rows_update_other ]).
Qed.

Lemma markRegistered_updates_or_skips_witness :
  exists w',
    VersionStore.markRegistered "acme/backend-service" Sample.seen_backend
      = (Ok tt, w') /\
    select_first "acme/backend-service" (table w') =
      option_map (fun row => mkRow (repo_key row) (manifest_version row)
                                   (last_seen_at row)
                                   (Some (clock Sample.seen_backend)))
                 (select_first "acme/backend-service" (table Sample.seen_backend)) /\
    (select_first "acme/backend-service" (table Sample.seen_backend) = None ->
       table w' = table Sample.seen_backend) /\
    (forall k', k' <> "acme/backend-service" ->
       rows_of k' (table w') = rows_of k' (table Sample.seen_backend)).
Proof.
  apply (@markRegistered_updates_or_skips
           "acme/backend-service" Sample.seen_backend).
  reflexivity.
Defined.

(** C7, as stated, fails: on a table without the key, [markRegistered]
    returns normally and the table is what it was. *)
Lemma markRegistered_missing_key_succeeds :
  select_first "acme/backend-service" (table Sample.fresh) = None /\
  fst (VersionStore.markRegistered "acme/backend-service" Sample.fresh) = Ok tt /\
  table (snd (VersionStore.markRegistered "acme/backend-service" Sample.fresh))
    = table Sample.fresh.
Proof. repeat split. Qed.

(** ** Classification of one descriptor *)

Lemma classify_cases (prior : option Row) ver :
  (classify (option_map manifest_version prior) ver = Unchanged <->
     exists row, prior = Some row /\ manifest_version row = ver) /\
  (classify (option_map manifest_version prior) ver = New <-> prior = None) /\
  (classify (option_map manifest_version prior) ver = Changed <->
     exists row, prior = Some row /\ manifest_version row <> ver).
Proof.
  destruct prior as [row|]; simpl.
  - destruct (String.eqb_spec (manifest_version row) ver) as [E|E].
    + split; [|split]; split; try discriminate.
      * eauto.
      * reflexivity.
      * intros (row' & H & Hne). injection H as <-. contradiction.
    + split; [|split]; split; try discriminate.
      * intros (row' & H & He). injection H as <-. contradiction.
      * eauto.
      * reflexivity.
  - split; [|split]; split; try discriminate; try reflexivity.
    + intros (row' & H & _). discriminate.
    + intros (row' & H & _). discriminate.
Qed.

(** C2. With [prior] the row the store holds for the descriptor's key, the
    descriptor is Unchanged exactly when [prior] exists and its
    [manifest_version] is the very string the descriptor declares, New exactly
    when there is no [prior], Changed exactly when [prior] exists with another
    string; [processRepository] asks for registration exactly when the
    descriptor is not Unchanged, and only then does the loop emit its
    location. *)
Theorem classification_is_string_equality env repo w :
  fault_free w ->
  let prior := select_first (repoKey_of repo) (table w) in
  let c := classify (option_map manifest_version prior) (version repo) in
  (c = Unchanged <->
     exists row, prior = Some row /\ manifest_version row = version repo) /\
  (c = New <-> prior = None) /\
  (c = Changed <->
     exists row, prior = Some row /\ manifest_version row <> version repo) /\
  exists w',
    processRepository env repo w
      = (Ok (mkResult (createLocationEntity env repo) (needs_publication c)), w') /\
    reconcile env [repo] [] w
      = (Ok (if needs_publication c then [createLocationEntity env repo] else []),
         w').
Proof.
  intros Hf prior c. subst prior c.
  assert (Hrun : exists w',
             processRepository env repo w
             = (Ok (mkResult (createLocationEntity env repo)
                      (needs_publication
                         (classify (known_of (table w) (repoKey_of repo))
                                   (version repo)))), w')).
  { destruct (needs_publication
                (classify (known_of (table w) (repoKey_of repo)) (version repo)))
      eqn:C.
    - destruct (processRepository_changed env repo Hf C) as (w' & Hrun & _).
      eauto.
    - pose proof C as C'. apply classify_unchanged_iff in C' as (row & Hs & Hv).
      assert (Hh : hd None (faults w) = None).
      { unfold fault_free in Hf. destruct (faults w); [reflexivity|].
        now inversion Hf. }
      destruct (processRepository_unchanged env repo w Hh Hs Hv) as (w' & Hrun & _).
      eauto. }
  destruct Hrun as (w' & Hrun).
  split; [|split; [|split]].
  - apply classify_cases.
  - apply classify_cases.
  - apply classify_cases.
  - exists w'. split; [exact Hrun|].
    simpl. unfold bind. rewrite Hrun. simpl.
    unfold known_of. now destruct (needs_publication _).
Qed.

Lemma classification_is_string_equality_witness :
  let env := Sample.serving [Sample.backend_padded] in
  let repo := Sample.backend_padded in
  let w := Sample.seen_backend in
  let prior := select_first (repoKey_of repo) (table w) in
  let c := classify (option_map manifest_version prior) (version repo) in
  (c = Unchanged <->
     exists row, prior = Some row /\ manifest_version row = version repo) /\
  (c = New <-> prior = None) /\
  (c = Changed <->
     exists row, prior = Some row /\ manifest_version row <> version repo) /\
  exists w',
    processRepository env repo w
      = (Ok (mkResult (createLocationEntity env repo) (needs_publication c)), w') /\
    reconcile env [repo] [] w
      = (Ok (if needs_publication c then [createLocationEntity env repo] else []),
         w').
Proof.
  apply (@classification_is_string_equality
           (Sample.serving [Sample.backend_padded])
           Sample.backend_padded Sample.seen_backend).
  unfold fault_free. simpl. constructor.
Defined.

(** The three cases of property P3, against a store that recorded 1.0.0. *)
Example same_version_is_unchanged :
  fst (processRepository (Sample.serving []) Sample.backend_1_0_0 Sample.seen_backend)
  = Ok (mkResult (createLocationEntity (Sample.serving []) Sample.backend_1_0_0) false).
Proof. reflexivity. Qed.

Example next_version_is_changed :
  fst (processRepository (Sample.serving []) Sample.backend_1_0_1 Sample.seen_backend)
  = Ok (mkResult (createLocationEntity (Sample.serving []) Sample.backend_1_0_1) true).
Proof. reflexivity. Qed.

Example padded_version_is_changed :
  fst (processRepository (Sample.serving []) Sample.backend_padded Sample.seen_backend)
  = Ok (mkResult (createLocationEntity (Sample.serving []) Sample.backend_padded) true).
Proof. reflexivity. Qed.

Example unknown_key_is_new :
  fst (processRepository (Sample.serving []) Sample.frontend_2_1_3 Sample.seen_backend)
  = Ok (mkResult (createLocationEntity (Sample.serving []) Sample.frontend_2_1_3) true)
  /\ classify (known_of (table Sample.seen_backend) "acme/frontend-app") "2.1.3" = New.
Proof. split; reflexivity. Qed.

(** C5, as the code has it.  When the store answers, an Unchanged descriptor
    costs one [select] and leaves every row, its [last_seen_at] included, as it
    was; a New or Changed descriptor leaves a row whose [last_seen_at] is the
    clock reading of its insert-or-merge statement. *)
Theorem lastSeenAt_follows_version_change env repo w :
  fault_free w ->
  let k := repoKey_of repo in
  let w' := snd (processRepository env repo w) in
  (forall row,
     select_first k (table w) = Some row ->
     manifest_version row = version repo ->
     table w' = table w /\
     db_trace w' = (db_trace w ++ [SelectFirst k])%list) /\
  (select_first k (table w) = None \/
   (exists row, select_first k (table w) = Some row /\
                manifest_version row <> version repo) ->
   select_first k (table w')
     = Some (mkRow k (version repo) (S (clock w)) (Some (S (S (clock w)))))).
Proof.
  intros Hf k w'. subst k w'. split.
  - intros row Hs Hv.
    assert (Hh : hd None (faults w) = None).
    { unfold fault_free in Hf. destruct (faults w); [reflexivity|].
      now inversion Hf. }
    destruct (processRepository_unchanged env repo w Hh Hs Hv)
      as (w' & Hrun & Ht & Htr & _).
    rewrite Hrun. simpl. now split.
  - intros Hc.
    assert (C : needs_publication
                  (classify (known_of (table w) (repoKey_of repo)) (version repo))
                = true).
    { destruct (needs_publication _) eqn:C; [reflexivity|].
      apply classify_unchanged_iff in C as (row & Hs & Hv).
      destruct Hc as [Hn | (row' & Hs' & Hne)]; congruence. }
    destruct (processRepository_changed env repo Hf C) as (w' & Hrun & Ht & _).
    rewrite Hrun. simpl. rewrite Ht.
    now rewrite select_update_same, select_insert_same.
Qed.

Lemma lastSeenAt_follows_version_change_witness :
  let env := Sample.serving [Sample.backend_1_0_1] in
  let repo := Sample.backend_1_0_1 in
  let w := Sample.seen_backend in
  let k := repoKey_of repo in
  let w' := snd (processRepository env repo w) in
  (forall row,
     select_first k (table w) = Some row ->
     manifest_version row = version repo ->
     table w' = table w /\
     db_trace w' = (db_trace w ++ [SelectFirst k])%list) /\
  (select_first k (table w) = None \/
   (exists row, select_first k (table w) = Some row /\
                manifest_version row <> version repo) ->
   select_first k (table w')
     = Some (mkRow k (version repo) (S (clock w)) (Some (S (S (clock w)))))).
Proof.
  apply (@lastSeenAt_follows_version_change
           (Sample.serving [Sample.backend_1_0_1])
           Sample.backend_1_0_1 Sample.seen_backend).
  unfold fault_free. simpl. constructor.
Defined.

(** C5, as stated, fails: a pass at clock 10 that observes [backend-service]
    at the recorded version completes and the row still says it was last seen
    at 1. *)
Lemma unchanged_descriptor_keeps_lastSeenAt :
  let env := Sample.serving [Sample.backend_1_0_0] in
  clock Sample.seen_backend = 10 /\
  fst (discover env Sample.seen_backend) = Ok tt /\
  table (snd (discover env Sample.seen_backend))
    = [mkRow "acme/backend-service" "1.0.0" 1 (Some 2)] /\
  db_trace (snd (discover env Sample.seen_backend))
    = [SelectFirst "acme/backend-service"].
Proof. repeat split. Qed.

(** ** Whole passes *)

Section Passes.

Variable env : Env.

(** A pass in which the store and the sink answer every call. *)
Lemma discover_fault_free w m :
  connected w = true ->
  fault_free w ->
  fst (fetchManifest env w) = Ok m ->
  let changed := changed_repos (known_of (table w)) (manifest_repositories m) in
  exists w',
    discover env w = (Ok tt, w') /\
    connected w' = true /\
    fault_free w' /\
    sink w' =
      (sink w ++ if Nat.ltb 0 (List.length changed)
                 then [delta_mutation (map (createLocationEntity env) changed)]
                 else [])%list /\
    (forall k, known_of (table w') k
               = known_after (known_of (table w)) (manifest_repositories m) k) /\
    (forall k, ~ In k (map repoKey_of changed) ->
               rows_of k (table w') = rows_of k (table w)) /\
    (forall k r,
       last_with_key k changed = Some r ->
       exists seen registered,
         select_first k (table w')
           = Some (mkRow k (version r) seen (Some registered)) /\
         clock w < seen /\ seen < registered /\ registered < clock w').
Proof.
  intros Hc Hf Hfetch changed.
  destruct (reconcile_fault_free env (manifest_repositories m) [] Hf)
    as (w2 & Hrun & Hf2 & Hclk & Hkn & Ho & Hl).
  fold changed in Hrun, Ho, Hl. simpl in Hrun.
  destruct (discover_after_fetch env w Hc Hfetch Hrun) as (w' & Hd & Hs).
  pose proof (reconcile_sink env (manifest_repositories m) [] w) as [Hsk Hcn].
  rewrite Hrun in Hsk, Hcn. simpl in Hsk, Hcn.
  exists w'. simpl in Hd, Hs. rewrite length_map in Hd, Hs.
  destruct (Nat.ltb 0 (List.length changed)).
  - destruct (applyMutation_fault_free
                (delta_mutation (map (createLocationEntity env) changed)) Hf2)
      as (w3 & Ha & Hsk3 & Ht3 & Hc3 & Htr3 & Hcn3 & Hf3).
    rewrite Ha in Hd, Hs. simpl in Hd, Hs. destruct Hs.
    repeat split; try congruence.
    + now apply (fault_free_same (w := w3)).
    + intros k Hk. rewrite <- Ho by assumption. congruence.
    + intros k r L. destruct (Hl k r L) as (s & g & Hsel & ? & ? & ?).
      exists s, g. repeat split; auto; [congruence | lia].
  - simpl in Hd, Hs. destruct Hs.
    repeat split; try congruence.
    + apply (fault_free_same (w := w2)); [now constructor | assumption].
    + rewrite app_nil_r. congruence.
    + intros k Hk. rewrite <- Ho by assumption. congruence.
    + intros k r L. destruct (Hl k r L) as (s & g & Hsel & ? & ? & ?).
      exists s, g. repeat split; auto; [congruence | lia].
Qed.

(** A pass over a manifest the store already records as declared. *)
Lemma discover_all_unchanged w m :
  connected w = true ->
  fault_free w ->
  fst (fetchManifest env w) = Ok m ->
  (forall r, In r (manifest_repositories m) ->
     exists row, select_first (repoKey_of r) (table w) = Some row /\
                 manifest_version row = version r) ->
  exists w',
    discover env w = (Ok tt, w') /\
    sink w' = sink w /\
    table w' = table w /\
    db_trace w' =
      (db_trace w
         ++ map (fun r => SelectFirst (repoKey_of r)) (manifest_repositories m))%list /\
    faults w' = skipn (List.length (manifest_repositories m)) (faults w).
Proof.
  intros Hc Hf Hfetch Hall.
  destruct (reconcile_all_unchanged env (manifest_repositories m) [] Hf Hall)
    as (w2 & Hrun & Ht & Htr & Hfs & Hsk & _).
  destruct (discover_after_fetch env w Hc Hfetch Hrun) as (w' & Hd & Hs).
  simpl in Hd, Hs. destruct Hs.
  exists w'. repeat split; congruence.
Qed.

(** What any pass does to the sink, the trace and the table. *)
Lemma discover_effect w :
  exists new stmts,
    sink (snd (discover env w)) = (sink w ++ new)%list /\
    Forall (fun mu => mutation_type mu = "delta" /\ removed mu = []) new /\
    db_trace (snd (discover env w)) = (db_trace w ++ stmts)%list /\
    (forall e, fst (fetchManifest env w) = Throw e ->
       stmts = [] /\ new = [] /\ table (snd (discover env w)) = table w) /\
    (forall m, fst (fetchManifest env w) = Ok m ->
       Forall (fun s => In (stmt_key s) (map repoKey_of (manifest_repositories m)))
              stmts /\
       forall k, ~ In k (map repoKey_of (manifest_repositories m)) ->
         rows_of k (table (snd (discover env w))) = rows_of k (table w)).
Proof.
  destruct (connected w) eqn:Hc.
  - destruct (fst (fetchManifest env w)) as [m|e] eqn:Hfetch.
    + destruct (reconcile env (manifest_repositories m) [] w) as [r w2] eqn:Hrun.
      destruct (discover_after_fetch env w Hc Hfetch Hrun) as (w' & Hd & Hs).
      destruct (publish_sink r w2) as (new & Hsk & Hnew & Ht & Htr).
      destruct (reconcile_trace env (manifest_repositories m) [] w)
        as (stmts & Htr2 & Hkeys).
      pose proof (reconcile_sink env (manifest_repositories m) [] w) as [Hsk2 _].
      pose proof (reconcile_other_keys env (manifest_repositories m) [] w) as Ho.
      rewrite Hrun in Htr2, Hsk2, Ho. simpl in Htr2, Hsk2, Ho.
      rewrite Hd. simpl. destruct Hs.
      exists new, stmts.
      split; [congruence|]. split; [assumption|]. split; [congruence|].
      split; [intros e; congruence|].
      intros m' [= <-]. split; [assumption|].
      intros k Hk. rewrite <- Ho by assumption. congruence.
    + destruct (discover_fetch_throws env w Hc Hfetch) as (w' & Hd & Hs).
      rewrite Hd. simpl. destruct Hs.
      exists [], []. rewrite !app_nil_r.
      split; [congruence|]. split; [constructor|]. split; [congruence|].
      split; [intros; repeat split; congruence | intros; congruence].
  - rewrite (discover_not_connected env w Hc). simpl.
    exists [], []. rewrite !app_nil_r.
    split; [reflexivity|]. split; [constructor|]. split; [reflexivity|].
    split; [intros; now repeat split|].
    intros m Hm. split; [constructor | reflexivity].
Qed.

End Passes.

(** ** Delta minimality and idempotence *)

(** C3. When the store and the sink answer, a pass over a manifest of which
    [changed] are the New and Changed descriptors (in manifest order) hands
    the sink one delta with exactly one location per descriptor of [changed],
    in that order (and nothing when [changed] is empty); the rows of every
    key outside [changed] are untouched, and every key of [changed] ends with
    a row that carries the version of its last descriptor and timestamps
    [last_seen_at] and [last_registered_at] taken during the pass.  With
    pairwise distinct keys [changed] is the manifest filtered by the
    classification against the store as the pass found it. *)
Theorem delta_minimality env w m :
  connected w = true ->
  fault_free w ->
  fst (fetchManifest env w) = Ok m ->
  let changed := changed_repos (known_of (table w)) (manifest_repositories m) in
  exists w',
    discover env w = (Ok tt, w') /\
    sink w' =
      (sink w ++ if Nat.ltb 0 (List.length changed)
                 then [delta_mutation (map (createLocationEntity env) changed)]
                 else [])%list /\
    List.length (added (delta_mutation (map (createLocationEntity env) changed)))
      = List.length changed /\
    (forall k, ~ In k (map repoKey_of changed) ->
               rows_of k (table w') = rows_of k (table w)) /\
    (forall k, In k (map repoKey_of changed) ->
       exists r seen registered,
         last_with_key k changed = Some r /\
         select_first k (table w')
           = Some (mkRow k (version r) seen (Some registered)) /\
         clock w < seen /\ seen < registered /\ registered < clock w') /\
    (NoDup (map repoKey_of (manifest_repositories m)) ->
     changed =
     filter (fun r => needs_publication
                        (classify (known_of (table w) (repoKey_of r)) (version r)))
            (manifest_repositories m)).
Proof.
  intros Hc Hf Hfetch changed.
  destruct (@discover_fault_free env w m Hc Hf Hfetch)
    as (w' & Hd & _ & _ & Hsk & _ & Ho & Hl).
  fold changed in Hsk, Ho, Hl.
  exists w'. split; [exact Hd|]. split; [exact Hsk|].
  split; [simpl; now rewrite !length_map|]. split; [exact Ho|]. split.
  - intros k Hk. destruct (last_with_key_exists k changed Hk) as (r & L & _).
    destruct (Hl k r L) as (s & g & Hsel & ? & ? & ?).
    exists r, s, g. auto.
  - intros Hnd. now apply changed_repos_distinct_keys.
Qed.

Lemma delta_minimality_witness :
  let env := Sample.serving [Sample.backend_1_0_1; Sample.frontend_2_1_3] in
  let w := Sample.seen_both in
  let m := Sample.manifest_of [Sample.backend_1_0_1; Sample.frontend_2_1_3] in
  let changed := changed_repos (known_of (table w)) (manifest_repositories m) in
  exists w',
    discover env w = (Ok tt, w') /\
    sink w' =
      (sink w ++ if Nat.ltb 0 (List.length changed)
                 then [delta_mutation (map (createLocationEntity env) changed)]
                 else [])%list /\
    List.length (added (delta_mutation (map (createLocationEntity env) changed)))
      = List.length changed /\
    (forall k, ~ In k (map repoKey_of changed) ->
               rows_of k (table w') = rows_of k (table w)) /\
    (forall k, In k (map repoKey_of changed) ->
       exists r seen registered,
         last_with_key k changed = Some r /\
         select_first k (table w')
           = Some (mkRow k (version r) seen (Some registered)) /\
         clock w < seen /\ seen < registered /\ registered < clock w') /\
    (NoDup (map repoKey_of (manifest_repositories m)) ->
     changed =
     filter (fun r => needs_publication
                        (classify (known_of (table w) (repoKey_of r)) (version r)))
            (manifest_repositories m)).
Proof.
  apply (@delta_minimality
           (Sample.serving [Sample.backend_1_0_1; Sample.frontend_2_1_3])
           Sample.seen_both
           (Sample.manifest_of [Sample.backend_1_0_1; Sample.frontend_2_1_3])).
  - reflexivity.
  - unfold fault_free. simpl. constructor.
  - vm_compute. reflexivity.
Defined.

(** The scenario of the specification: A@1.0.0 and B@2.1.3 on an empty
    store, then the same manifest, then B moved. *)
Example first_pass_emits_both :
  let env := Sample.serving [Sample.backend_1_0_0; Sample.frontend_2_1_3] in
  sink (snd (discover env Sample.fresh))
  = [delta_mutation (map (createLocationEntity env)
                         [Sample.backend_1_0_0; Sample.frontend_2_1_3])]
  /\ table (snd (discover env Sample.fresh))
     = [mkRow "acme/backend-service" "1.0.0" 1 (Some 2);
        mkRow "acme/frontend-app" "2.1.3" 4 (Some 5)].
Proof. split; vm_compute; reflexivity. Qed.

Example changed_version_emits_one :
  let env := Sample.serving [Sample.backend_1_0_1; Sample.frontend_2_1_3] in
  sink (snd (discover env Sample.seen_both))
  = [delta_mutation [createLocationEntity env Sample.backend_1_0_1]]
  /\ table (snd (discover env Sample.seen_both))
     = [mkRow "acme/backend-service" "1.0.1" 11 (Some 12);
        mkRow "acme/frontend-app" "2.1.3" 4 (Some 5)].
Proof. split; vm_compute; reflexivity. Qed.

(** Idempotence at the declared types, where every version is a string.
    For a manifest whose descriptors agree on the version key by key (in
    particular, one with pairwise distinct keys), when the store and the sink
    answer, a second pass right after the first classifies every descriptor
    Unchanged: it hands nothing to the sink, writes nothing and only reads
    each key once. *)
Theorem second_pass_is_empty env w m :
  connected w = true ->
  fault_free w ->
  fst (fetchManifest env w) = Ok m ->
  consistent (manifest_repositories m) ->
  exists w1 w2,
    discover env w = (Ok tt, w1) /\
    discover env w1 = (Ok tt, w2) /\
    changed_repos (known_of (table w1)) (manifest_repositories m) = [] /\
    sink w2 = sink w1 /\
    table w2 = table w1 /\
    db_trace w2 =
      (db_trace w1
         ++ map (fun r => SelectFirst (repoKey_of r)) (manifest_repositories m))%list.
Proof.
  intros Hc Hf Hfetch Hcons.
  destruct (@discover_fault_free env w m Hc Hf Hfetch)
    as (w1 & Hd & Hc1 & Hf1 & _ & Hkn & _).
  assert (Hknown : forall r, In r (manifest_repositories m) ->
            known_of (table w1) (repoKey_of r) = Some (version r)).
  { intros r Hr. rewrite Hkn. now apply known_after_consistent. }
  assert (Hall : forall r, In r (manifest_repositories m) ->
            exists row, select_first (repoKey_of r) (table w1) = Some row /\
                        manifest_version row = version r).
  { intros r Hr. specialize (Hknown r Hr). unfold known_of in Hknown.
    destruct (select_first (repoKey_of r) (table w1)) as [row|];
      [|discriminate].
    exists row. split; [reflexivity|]. simpl in Hknown. congruence. }
  assert (Hfetch1 : fst (fetchManifest env w1) = Ok m).
  { now rewrite (fetchManifest_result env w1 w). }
  destruct (@discover_all_unchanged env w1 m Hc1 Hf1 Hfetch1 Hall)
    as (w2 & Hd2 & Hsk & Ht & Htr & _).
  exists w1, w2. repeat split; try assumption.
  now apply changed_repos_nil.
Qed.

Lemma second_pass_is_empty_witness :
  let env := Sample.serving [Sample.backend_1_0_0; Sample.frontend_2_1_3] in
  let m := Sample.manifest_of [Sample.backend_1_0_0; Sample.frontend_2_1_3] in
  exists w1 w2,
    discover env Sample.fresh = (Ok tt, w1) /\
    discover env w1 = (Ok tt, w2) /\
    changed_repos (known_of (table w1)) (manifest_repositories m) = [] /\
    sink w2 = sink w1 /\
    table w2 = table w1 /\
    db_trace w2 =
      (db_trace w1
         ++ map (fun r => SelectFirst (repoKey_of r)) (manifest_repositories m))%list.
Proof.
  apply (@second_pass_is_empty
           (Sample.serving [Sample.backend_1_0_0; Sample.frontend_2_1_3])
           Sample.fresh
           (Sample.manifest_of [Sample.backend_1_0_0; Sample.frontend_2_1_3])).
  - reflexivity.
  - unfold fault_free. simpl. constructor.
  - vm_compute. reflexivity.
  - intros r1 r2 H1 H2 Hk. simpl in H1, H2.
    destruct H1 as [<-|[<-|[]]], H2 as [<-|[<-|[]]];
      solve [reflexivity | discriminate Hk].
Defined.

(** C1, as stated, fails: a manifest that lists [acme/backend-service] twice,
    at 1.0.0 and at 1.0.1, is re-emitted in full by the second pass. *)
Lemma second_pass_reemits_duplicated_key :
  let env := Sample.serving [Sample.backend_1_0_0; Sample.backend_1_0_1] in
  let w1 := snd (discover env Sample.fresh) in
  let w2 := snd (discover env w1) in
  fst (discover env Sample.fresh) = Ok tt /\
  fst (discover env w1) = Ok tt /\
  sink w2 =
    (sink w1 ++ [delta_mutation
                   (map (createLocationEntity env)
                        [Sample.backend_1_0_0; Sample.backend_1_0_1])])%list.
Proof. split; [|split]; vm_compute; reflexivity. Qed.

(** ** Failures *)

(** C4, as the code has it.  A store error while a descriptor is processed
    ends the pass: [discover] rethrows the error, the state is the one in
    which the statement failed (no statement is sent for a later descriptor)
    and nothing is handed to the sink. *)
Theorem store_error_aborts_pass env w m pre repo post locs w1 e w2 :
  connected w = true ->
  fst (fetchManifest env w) = Ok m ->
  manifest_repositories m = (pre ++ repo :: post)%list ->
  reconcile env pre [] w = (Ok locs, w1) ->
  processRepository env repo w1 = (Throw e, w2) ->
  exists w',
    discover env w = (Throw e, w') /\
    same_state w2 w' /\
    sink w' = sink w /\
    exists stmts,
      db_trace w' = (db_trace w ++ stmts)%list /\
      Forall (fun s => In (stmt_key s) (map repoKey_of (pre ++ [repo])%list)) stmts.
Proof.
  intros Hc Hfetch Hm Hpre Hrepo.
  pose proof (reconcile_throw env pre repo post [] w Hpre Hrepo) as Hrun.
  rewrite <- Hm in Hrun.
  destruct (@discover_after_fetch env w m (Throw e) w2 Hc Hfetch Hrun)
    as (w' & Hd & Hs).
  simpl in Hd, Hs.
  assert (Hrun' : reconcile env (pre ++ [repo])%list [] w = (Throw e, w2)).
  { now apply reconcile_throw with (locs := locs) (w1 := w1). }
  pose proof (reconcile_sink env (pre ++ [repo])%list [] w) as [Hsk _].
  destruct (reconcile_trace env (pre ++ [repo])%list [] w) as (stmts & Htr & Hk).
  rewrite Hrun' in Hsk, Htr. simpl in Hsk, Htr.
  exists w'. split; [exact Hd|]. split; [exact Hs|]. destruct Hs.
  split; [congruence|]. exists stmts. split; [congruence | exact Hk].
Qed.

Lemma store_error_aborts_pass_witness :
  let env := Sample.serving [Sample.backend_1_0_0; Sample.frontend_2_1_3] in
  let w := Sample.failing_upsert in
  let w2 := snd (processRepository env Sample.backend_1_0_0 w) in
  exists w',
    discover env w = (Throw Sample.db_down, w') /\
    same_state w2 w' /\
    sink w' = sink w /\
    exists stmts,
      db_trace w' = (db_trace w ++ stmts)%list /\
      Forall (fun s => In (stmt_key s)
                          (map repoKey_of ([] ++ [Sample.backend_1_0_0])%list)) stmts.
Proof.
  apply (@store_error_aborts_pass
           (Sample.serving [Sample.backend_1_0_0; Sample.frontend_2_1_3])
           Sample.failing_upsert
           (Sample.manifest_of [Sample.backend_1_0_0; Sample.frontend_2_1_3])
           [] Sample.backend_1_0_0 [Sample.frontend_2_1_3]
           [] Sample.failing_upsert Sample.db_down
           (snd (processRepository
                   (Sample.serving [Sample.backend_1_0_0; Sample.frontend_2_1_3])
                   Sample.backend_1_0_0 Sample.failing_upsert))).
  - reflexivity.
  - vm_compute. reflexivity.
  - reflexivity.
  - reflexivity.
  - vm_compute. reflexivity.
Defined.

(** C4, as stated, fails: the upsert of the first of two New descriptors
    fails; the pass ends with that error, the second descriptor is neither
    read nor recorded, and the sink receives nothing. *)
Lemma store_error_stops_remaining_descriptors :
  let env := Sample.serving [Sample.backend_1_0_0; Sample.frontend_2_1_3] in
  let w' := snd (discover env Sample.failing_upsert) in
  classify (known_of (table Sample.failing_upsert) "acme/frontend-app") "2.1.3"
    = New /\
  fst (discover env Sample.failing_upsert) = Throw Sample.db_down /\
  sink w' = [] /\
  table w' = [] /\
  db_trace w' = [SelectFirst "acme/backend-service";
                 InsertOnConflictMerge "acme/backend-service" "1.0.0"].
Proof. repeat (split; [vm_compute; reflexivity|]). vm_compute. reflexivity. Qed.

(** C8. When the fetch fails (the manifest is unreachable, the response is
    not a success, or the content is malformed or has no
    [spec.repositories]), [discover] fails with the error of the fetch and
    the state is the one it started in: no statement reached the store, no
    row changed and the sink received nothing. *)
Theorem fetch_failure_aborts_before_store env w :
  connected w = true ->
  fetch_failure env ->
  exists e w',
    discover env w = (Throw e, w') /\
    fst (fetchManifest env w) = Throw e /\
    table w' = table w /\
    db_trace w' = db_trace w /\
    sink w' = sink w /\
    faults w' = faults w.
Proof.
  intros Hc Hfail.
  destruct (fetch_failure_throws w Hfail) as (e & Hfetch).
  destruct (discover_fetch_throws env w Hc Hfetch) as (w' & Hd & Hs).
  destruct Hs. exists e, w'. repeat split; congruence.
Qed.

Lemma fetch_failure_aborts_before_store_witness :
  exists e w',
    discover Sample.not_found Sample.seen_both = (Throw e, w') /\
    fst (fetchManifest Sample.not_found Sample.seen_both) = Throw e /\
    table w' = table Sample.seen_both /\
    db_trace w' = db_trace Sample.seen_both /\
    sink w' = sink Sample.seen_both /\
    faults w' = faults Sample.seen_both.
Proof.
  apply (@fetch_failure_aborts_before_store Sample.not_found Sample.seen_both).
  - reflexivity.
  - apply (@NonSuccess Sample.not_found (mkIntegration None None)
             (mkResponse false 404 "Not Found" "")); reflexivity.
Defined.

(** The three causes, on the sample configuration. *)
Example unreachable_manifest_is_fatal :
  let env := mkEnv Sample.cfg (fun _ => Some (mkIntegration None None))
                   (fun s => s)
                   (fun _ _ => NetworkError (new_Error "ECONNREFUSED"))
                   (fun _ => YamlNull) in
  discover env Sample.seen_both
  = (Throw (new_Error "ECONNREFUSED"),
     mkWorld (table Sample.seen_both) 10 [] [] []
       [(Info, "Starting Bitbucket manifest discovery");
        (Debug, "Fetching manifest from https://bitbucket.org/acme/manifests/raw/main/manifest.yaml");
        (LogError, "Discovery failed: Error: ECONNREFUSED")] true).
Proof. vm_compute. reflexivity. Qed.

Example missing_repositories_is_fatal :
  let env := mkEnv Sample.cfg (fun _ => Some (mkIntegration None None))
                   (fun s => s)
                   (fun _ _ => Responded (mkResponse true 200 "OK" "spec: {}"))
                   (fun _ => YamlDocument (mkManifest "" "" "" (Some (mkSpec None)))) in
  fst (discover env Sample.seen_both)
  = Throw (new_Error "Invalid manifest: missing spec.repositories")
  /\ db_trace (snd (discover env Sample.seen_both)) = [].
Proof. split; vm_compute; reflexivity. Qed.

(** ** Removals and the sink *)

(** C9. Whatever a pass meets, every mutation it hands to the sink is a delta
    whose [removed] list is empty; and for a key the fetched manifest does not
    list, the rows of the key are untouched and no statement about the key is
    sent to the store. *)
Theorem no_removals env w :
  (exists new,
     sink (snd (discover env w)) = (sink w ++ new)%list /\
     Forall (fun mu => mutation_type mu = "delta" /\ removed mu = []) new) /\
  forall m k,
    fst (fetchManifest env w) = Ok m ->
    ~ In k (map repoKey_of (manifest_repositories m)) ->
    rows_of k (table (snd (discover env w))) = rows_of k (table w) /\
    exists stmts,
      db_trace (snd (discover env w)) = (db_trace w ++ stmts)%list /\
      Forall (fun s => stmt_key s <> k) stmts.
Proof.
  destruct (discover_effect env w) as (new & stmts & Hsk & Hnew & Htr & _ & Hm).
  split; [eauto|]. intros m k Hfetch Hk.
  destruct (Hm m Hfetch) as [Hkeys Ho].
  split; [now apply Ho|].
  exists stmts. split; [exact Htr|].
  eapply Forall_impl; [|exact Hkeys]. simpl. intros s Hin E.
  rewrite E in Hin. contradiction.
Qed.

Lemma no_removals_witness :
  let env := Sample.serving [Sample.backend_1_0_1] in
  let w := Sample.seen_both in
  let k := "acme/frontend-app" in
  (exists new,
     sink (snd (discover env w)) = (sink w ++ new)%list /\
     Forall (fun mu => mutation_type mu = "delta" /\ removed mu = []) new) /\
  rows_of k (table (snd (discover env w))) = rows_of k (table w) /\
  exists stmts,
    db_trace (snd (discover env w)) = (db_trace w ++ stmts)%list /\
    Forall (fun s => stmt_key s <> k) stmts.
Proof.
  destruct (@no_removals (Sample.serving [Sample.backend_1_0_1]) Sample.seen_both)
    as [Hsink Hkeys].
  split; [exact Hsink|].
  apply (Hkeys (Sample.manifest_of [Sample.backend_1_0_1]) "acme/frontend-app").
  - vm_compute. reflexivity.
  - simpl. intros [H|[]]. discriminate H.
Defined.

(** A repository dropped from the manifest keeps its row and causes no
    removal. *)
Example dropped_repository_is_kept :
  let env := Sample.serving [Sample.backend_1_0_1] in
  sink (snd (discover env Sample.seen_both))
  = [mkMutation "delta"
       [mkDeferred (createLocationEntity env Sample.backend_1_0_1)
                   "bitbucket-manifest-discover"] []]
  /\ select_first "acme/frontend-app" (table (snd (discover env Sample.seen_both)))
     = Some (mkRow "acme/frontend-app" "2.1.3" 4 (Some 5)).
Proof. split; vm_compute; reflexivity. Qed.

(** C10. When the store answers and every descriptor of the manifest is
    classified Unchanged, the pass succeeds without calling the sink: the
    sink holds what it held, and the only I/O calls of the pass are the
    [select]s, one per descriptor. *)
Theorem unchanged_pass_skips_sink env w m :
  connected w = true ->
  fault_free w ->
  fst (fetchManifest env w) = Ok m ->
  (forall r, In r (manifest_repositories m) ->
     classify (known_of (table w) (repoKey_of r)) (version r) = Unchanged) ->
  exists w',
    discover env w = (Ok tt, w') /\
    sink w' = sink w /\
    faults w' = skipn (List.length (manifest_repositories m)) (faults w) /\
    db_trace w' =
      (db_trace w
         ++ map (fun r => SelectFirst (repoKey_of r)) (manifest_repositories m))%list.
Proof.
  intros Hc Hf Hfetch Hall.
  assert (Hrows : forall r, In r (manifest_repositories m) ->
            exists row, select_first (repoKey_of r) (table w) = Some row /\
                        manifest_version row = version r).
  { intros r Hr. apply classify_unchanged_iff. now rewrite (Hall r Hr). }
  destruct (@discover_all_unchanged env w m Hc Hf Hfetch Hrows)
    as (w' & Hd & Hsk & _ & Htr & Hfs).
  exists w'. auto.
Qed.

Lemma unchanged_pass_skips_sink_witness :
  let env := Sample.serving [Sample.backend_1_0_0; Sample.frontend_2_1_3] in
  let w := Sample.seen_both in
  let m := Sample.manifest_of [Sample.backend_1_0_0; Sample.frontend_2_1_3] in
  exists w',
    discover env w = (Ok tt, w') /\
    sink w' = sink w /\
    faults w' = skipn (List.length (manifest_repositories m)) (faults w) /\
    db_trace w' =
      (db_trace w
         ++ map (fun r => SelectFirst (repoKey_of r)) (manifest_repositories m))%list.
Proof.
  apply (@unchanged_pass_skips_sink
           (Sample.serving [Sample.backend_1_0_0; Sample.frontend_2_1_3])
           Sample.seen_both
           (Sample.manifest_of [Sample.backend_1_0_0; Sample.frontend_2_1_3])).
  - reflexivity.
  - unfold fault_free. simpl. constructor.
  - vm_compute. reflexivity.
  - intros r Hr. simpl in Hr. destruct Hr as [<-|[<-|[]]]; vm_compute; reflexivity.
Defined.

(** With one location to register the sink is called once, and its failure
    fails the pass after the store was written. *)
Example sink_failure_after_store_commit :
  let env := Sample.serving [Sample.backend_1_0_0] in
  let w := mkWorld [] 0 [None; None; None; Some Sample.db_down] [] [] [] true in
  fst (discover env w) = Throw Sample.db_down
  /\ sink (snd (discover env w)) = []
  /\ table (snd (discover env w))
     = [mkRow "acme/backend-service" "1.0.0" 1 (Some 2)].
Proof. repeat (split; [vm_compute; reflexivity|]). vm_compute. reflexivity. Qed.

(** ** Further properties of a pass *)

Local Opaque String.append.

Lemma changed_repos_incl known repos r :
  In r (changed_repos known repos) -> In r repos.
Proof.
  revert known. induction repos as [|repo rest IH]; intros kn; simpl; [tauto|].
  destruct (needs_publication _); simpl; intros H.
  - destruct H; [now left | right; eauto].
  - right; eauto.
Qed.

(** A descriptor adds at most the row of its own key and removes none. *)
Lemma processRepository_keys env repo w :
  exists added,
    map repo_key (table (snd (processRepository env repo w)))
      = (map repo_key (table w) ++ added)%list /\
    incl added [repoKey_of repo].
Proof.
  run_descriptor w;
    rewrite ?keys_update_registered, ?keys_insert_on_conflict_merge;
    try match goal with
        | |- context [existsb ?f ?t] => destruct (existsb f t)
        end;
    first [ exists []; rewrite app_nil_r; split;
            [reflexivity | intros x []]
          | eexists; split; [reflexivity | apply incl_refl] ].
Qed.

(** What a descriptor that was processed without error did. *)
Lemma processRepository_ok env repo w res w' :
  processRepository env repo w = (Ok res, w') ->
  let changed :=
    needs_publication
      (classify (known_of (table w) (repoKey_of repo)) (version repo)) in
  res = mkResult (createLocationEntity env repo) changed /\
  table w' =
    (if changed
     then update_registered (S (S (clock w))) (repoKey_of repo)
            (insert_on_conflict_merge (S (clock w)) (repoKey_of repo)
               (version repo) (table w))
     else table w) /\
  faults w' = skipn (if changed then 3 else 1) (faults w) /\
  connected w' = connected w.
Proof.
  unfold known_of, classify. run_descriptor w; simpl;
    intros H; inversion H; subst; clear H; simpl; auto.
Qed.

Section MoreLoop.

Variable env : Env.

Lemma reconcile_keys repos acc w :
  exists added,
    map repo_key (table (snd (reconcile env repos acc w)))
      = (map repo_key (table w) ++ added)%list /\
    incl added (map repoKey_of repos).
Proof.
  revert acc w. induction repos as [|repo rest IH]; intros acc w; simpl.
  - exists []. rewrite app_nil_r. split; [reflexivity | intros x []].
  - unfold bind.
    destruct (processRepository_keys env repo w) as (a1 & Hk1 & Hi1).
    destruct (processRepository env repo w) as [[res|e] w1]; simpl in *.
    + destruct (IH (if shouldRegister res then (acc ++ [location res])%list else acc) w1)
        as (a2 & Hk2 & Hi2).
      exists (a1 ++ a2)%list. split.
      * rewrite Hk2, Hk1. now rewrite app_assoc.
      * apply incl_app.
        -- intros x Hx. apply Hi1 in Hx. destruct Hx as [<-|[]]. now left.
        -- intros x Hx. right. now apply Hi2.
    + exists a1. split; [assumption|].
      intros x Hx. apply Hi1 in Hx. destruct Hx as [<-|[]]. now left.
Qed.

(** The loop, whenever it ends without error, emitted the New and Changed
    descriptors and left the versions the specification expects. *)
Lemma reconcile_ok repos : forall acc w locs w',
  reconcile env repos acc w = (Ok locs, w') ->
  locs = (acc ++ map (createLocationEntity env)
                     (changed_repos (known_of (table w)) repos))%list /\
  (forall k, known_of (table w') k = known_after (known_of (table w)) repos k) /\
  connected w' = connected w.
Proof.
  induction repos as [|repo rest IH]; intros acc w locs w'; simpl.
  - intros [= <- <-]. rewrite app_nil_r. auto.
  - unfold bind.
    destruct (processRepository env repo w) as [[res|e] w1] eqn:Hrun;
      [|discriminate].
    intros Hrest.
    destruct (processRepository_ok env repo w Hrun) as (Hres & Ht & _ & Hc).
    destruct (IH _ _ _ _ Hrest) as (Hlocs & Hkn & Hc').
    subst res. simpl in *.
    destruct (needs_publication
                (classify (known_of (table w) (repoKey_of repo)) (version repo))).
    + assert (Hk1 : forall k, known_of (table w1) k
                = record_version (repoKey_of repo) (version repo)
                    (known_of (table w)) k).
      { intros k. rewrite Ht. apply known_of_changed. }
      rewrite (changed_repos_ext _ _ rest Hk1) in Hlocs.
      split; [|split; [|congruence]].
      * rewrite Hlocs, <- app_assoc. reflexivity.
      * intros k. rewrite Hkn. now apply known_after_ext.
    + rewrite Ht in *. split; [assumption|]. split; [assumption | congruence].
Qed.

End MoreLoop.

Section MorePasses.

Variable env : Env.

(** X1. A pass keeps the primary key of the table, whatever the store, the
    sink and the fetch answer. *)
Theorem discover_keeps_primary_key w :
  primary_key (table w) -> primary_key (table (snd (discover env w))).
Proof.
  intros Hpk. destruct (connected w) eqn:Hc.
  - destruct (fst (fetchManifest env w)) as [m|e] eqn:Hfetch.
    + destruct (reconcile env (manifest_repositories m) [] w) as [r w2] eqn:Hrun.
      destruct (discover_after_fetch env w Hc Hfetch Hrun) as (w' & Hd & Hs).
      destruct (publish_sink r w2) as (new & _ & _ & Ht & _).
      pose proof (reconcile_primary_key env (manifest_repositories m) [] w Hpk) as H2.
      rewrite Hrun in H2. simpl in H2.
      rewrite Hd. simpl. destruct Hs. congruence.
    + destruct (discover_fetch_throws env w Hc Hfetch) as (w' & Hd & Hs).
      rewrite Hd. simpl. destruct Hs. congruence.
  - now rewrite (discover_not_connected env w Hc).
Qed.

(** X2. A pass never deletes a row: the keys of the table after the pass are
    the keys it had, in the same order, followed by keys of descriptors of
    the fetched manifest. *)
Theorem discover_only_appends_keys w :
  exists added,
    map repo_key (table (snd (discover env w)))
      = (map repo_key (table w) ++ added)%list /\
    forall k, In k added ->
      exists m, fst (fetchManifest env w) = Ok m /\
                In k (map repoKey_of (manifest_repositories m)).
Proof.
  destruct (connected w) eqn:Hc.
  - destruct (fst (fetchManifest env w)) as [m|e] eqn:Hfetch.
    + destruct (reconcile env (manifest_repositories m) [] w) as [r w2] eqn:Hrun.
      destruct (discover_after_fetch env w Hc Hfetch Hrun) as (w' & Hd & Hs).
      destruct (publish_sink r w2) as (new & _ & _ & Ht & _).
      destruct (reconcile_keys env (manifest_repositories m) [] w)
        as (added & Hk & Hi).
      rewrite Hrun in Hk. simpl in Hk.
      exists added. rewrite Hd. simpl. destruct Hs. split; [congruence|].
      intros k Hin. exists m. split; [reflexivity | now apply Hi].
    + destruct (discover_fetch_throws env w Hc Hfetch) as (w' & Hd & Hs).
      exists []. rewrite Hd, app_nil_r. simpl. destruct Hs.
      split; [congruence | intros k []].
  - rewrite (discover_not_connected env w Hc). exists [].
    rewrite app_nil_r. split; [reflexivity | intros k []].
Qed.

(** X3. Whatever happens in a pass, every entity it hands to the sink is the
    location of a descriptor of the fetched manifest, filed under the
    provider's name. *)
Theorem emitted_locations_come_from_manifest w :
  exists new,
    sink (snd (discover env w)) = (sink w ++ new)%list /\
    forall mu d, In mu new -> In d (added mu) ->
      locationKey d = getProviderName /\
      exists m repo,
        fst (fetchManifest env w) = Ok m /\
        In repo (manifest_repositories m) /\
        entity d = createLocationEntity env repo.
Proof.
  destruct (connected w) eqn:Hc.
  - destruct (fst (fetchManifest env w)) as [m|e] eqn:Hfetch.
    + destruct (reconcile env (manifest_repositories m) [] w) as [r w2] eqn:Hrun.
      destruct (discover_after_fetch env w Hc Hfetch Hrun) as (w' & Hd & Hs).
      pose proof (reconcile_sink env (manifest_repositories m) [] w) as [Hsk _].
      rewrite Hrun in Hsk. simpl in Hsk.
      rewrite Hd. simpl. destruct Hs.
      assert (Hnone : exists new, sink w2 = (sink w ++ new)%list /\
                forall mu d, In mu new -> In d (added mu) ->
                  locationKey d = getProviderName /\
                  exists m0 repo, Ok m = Ok m0 /\
                    In repo (manifest_repositories m0) /\
                    entity d = createLocationEntity env repo).
      { exists []. rewrite app_nil_r. split; [assumption | intros mu d []]. }
      destruct r as [locs|e]; simpl in *; [|destruct Hnone as (n & Hn & Hp);
        exists n; split; [congruence | exact Hp]].
      destruct (Nat.ltb 0 (List.length locs)); simpl in *;
        [|destruct Hnone as (n & Hn & Hp); exists n; split;
          [congruence | exact Hp]].
      destruct (reconcile_ok env _ _ _ Hrun) as (Hlocs & _).
      simpl in Hlocs.
      unfold applyMutation in *.
      destruct (faults w2) as [|[e|] fs]; simpl in *;
        try (destruct Hnone as (n & Hn & Hp); exists n; split;
             [congruence | exact Hp]);
        (exists [delta_mutation locs]; split; [congruence|];
         intros mu d [<-|[]] Hd'; simpl in Hd';
         apply in_map_iff in Hd' as (loc & <- & Hloc); simpl;
         split; [reflexivity|];
         rewrite Hlocs in Hloc; apply in_map_iff in Hloc as (repo & <- & Hrepo);
         exists m, repo; split; [reflexivity|]; split; [|reflexivity];
         now apply changed_repos_incl in Hrepo).
    + destruct (discover_fetch_throws env w Hc Hfetch) as (w' & Hd & Hs).
      exists []. rewrite Hd, app_nil_r. simpl. destruct Hs.
      split; [congruence | intros mu d []].
  - rewrite (discover_not_connected env w Hc). exists [].
    rewrite app_nil_r. split; [reflexivity | intros mu d []].
Qed.

(** X4. A manifest with an empty [spec.repositories] is accepted: the pass
    succeeds without a store statement or a sink call, whatever failures are
    scheduled. *)
Theorem empty_manifest_is_a_noop w m :
  connected w = true ->
  fst (fetchManifest env w) = Ok m ->
  manifest_repositories m = [] ->
  exists w', discover env w = (Ok tt, w') /\ same_state w w'.
Proof.
  intros Hc Hfetch Hm.
  assert (Hrun : reconcile env (manifest_repositories m) [] w = (Ok [], w))
    by now rewrite Hm.
  destruct (discover_after_fetch env w Hc Hfetch Hrun) as (w' & Hd & Hs).
  exists w'. now split.
Qed.


End MorePasses.

(** ** Timestamps, the statement protocol and lost deltas *)

Lemma insert_rows now k ver t row :
  In row (insert_on_conflict_merge now k ver t) ->
  (repo_key row = k /\ last_seen_at row = now) \/
  (repo_key row <> k /\ In row t).
Proof.
  unfold insert_on_conflict_merge. destruct (existsb (key_is k) t) eqn:Ex.
  - intros H. apply in_map_iff in H as (r & <- & Hr).
    destruct (key_is k r) eqn:E.
    + left. simpl. split; [now apply key_is_true | reflexivity].
    + right. split; [now apply key_is_false | assumption].
  - intros H. apply in_app_or in H as [H|[<-|[]]].
    + right. split; [|assumption]. intros E.
      apply (existsb_key_is_in _ _ Ex). rewrite <- E. now apply in_map.
    + left. now split.
Qed.

(** The two writes of a New or Changed descriptor keep registrations after
    sightings. *)
Lemma registered_after_seen_changed now k ver t :
  registered_after_seen t ->
  registered_after_seen
    (update_registered (S now) k (insert_on_conflict_merge now k ver t)).
Proof.
  unfold registered_after_seen. rewrite !Forall_forall. intros H row Hin.
  unfold update_registered in Hin. apply in_map_iff in Hin as (r & <- & Hr).
  apply insert_rows in Hr as [[Hk Hs] | [Hk Hr]].
  - apply key_is_true in Hk. rewrite Hk. simpl. lia.
  - apply key_is_false in Hk. rewrite Hk. now apply H.
Qed.

Lemma protocol_run_app p s1 s2 :
  protocol_run p (s1 ++ s2)%list =
  match protocol_run p s1 with
  | Some p' => protocol_run p' s2
  | None => None
  end.
Proof.
  revert p. induction s1 as [|s s1 IH]; intros p; simpl; [reflexivity|].
  destruct (protocol_step p s); [apply IH | reflexivity].
Qed.

(** The statements of one descriptor follow the protocol, and a descriptor
    processed without error leaves nothing half done. *)
Lemma processRepository_protocol env repo w p :
  resting p ->
  exists stmts p',
    db_trace (snd (processRepository env repo w)) = (db_trace w ++ stmts)%list /\
    protocol_run p stmts = Some p' /\
    (forall res, fst (processRepository env repo w) = Ok res -> resting p').
Proof.
  intros Hp. destruct p; try contradiction;
    run_descriptor w; rewrite <- ?app_assoc; simpl;
    (eexists; eexists; split; [reflexivity|]);
    repeat (progress (cbn [protocol_run protocol_step];
                      rewrite ?String.eqb_refl));
    (split; [reflexivity|]); intros res; simpl; try discriminate; auto.
Qed.

Section Protocol.

Variable env : Env.

Lemma reconcile_protocol repos : forall acc w p,
  resting p ->
  exists stmts p',
    db_trace (snd (reconcile env repos acc w)) = (db_trace w ++ stmts)%list /\
    protocol_run p stmts = Some p' /\
    (forall locs, fst (reconcile env repos acc w) = Ok locs -> resting p').
Proof.
  induction repos as [|repo rest IH]; intros acc w p Hp; simpl.
  - exists [], p. rewrite app_nil_r. auto.
  - unfold bind.
    destruct (processRepository_protocol env repo w p Hp)
      as (s1 & p1 & Ht1 & Hr1 & Hok1).
    destruct (processRepository env repo w) as [[res|e] w1]; simpl in *.
    + destruct (IH (if shouldRegister res then (acc ++ [location res])%list else acc)
                   w1 p1 (Hok1 res eq_refl))
        as (s2 & p2 & Ht2 & Hr2 & Hok2).
      exists (s1 ++ s2)%list, p2. split; [|split].
      * rewrite Ht2, Ht1. now rewrite app_assoc.
      * now rewrite protocol_run_app, Hr1.
      * exact Hok2.
    + exists s1, p1. split; [assumption|]. split; [assumption|]. discriminate.
Qed.

Lemma reconcile_registered_after_seen repos : forall acc w locs w',
  reconcile env repos acc w = (Ok locs, w') ->
  registered_after_seen (table w) -> registered_after_seen (table w').
Proof.
  induction repos as [|repo rest IH]; intros acc w locs w'; simpl.
  - now intros [= _ <-].
  - unfold bind.
    destruct (processRepository env repo w) as [[res|e] w1] eqn:Hrun;
      [|discriminate].
    intros Hrest Hinv. apply (IH _ _ _ _ Hrest).
    destruct (processRepository_ok env repo w Hrun) as (_ & Ht & _).
    rewrite Ht. destruct (needs_publication _); [|assumption].
    now apply registered_after_seen_changed.
Qed.

(** X6. The statements a pass sends to the store follow the protocol
    select, then upsert of the key just selected, then registration of the
    key just upserted, whatever the store answers; so [markRegistered] is
    only ever sent for a key whose upsert was sent right before.  A pass
    that succeeds leaves no descriptor half done. *)
Theorem discover_follows_store_protocol w :
  exists stmts p,
    db_trace (snd (discover env w)) = (db_trace w ++ stmts)%list /\
    protocol_run Idle stmts = Some p /\
    (fst (discover env w) = Ok tt -> resting p).
Proof.
  destruct (connected w) eqn:Hc.
  - destruct (fst (fetchManifest env w)) as [m|e] eqn:Hfetch.
    + destruct (reconcile env (manifest_repositories m) [] w) as [r w2] eqn:Hrun.
      destruct (discover_after_fetch env w Hc Hfetch Hrun) as (w' & Hd & Hs).
      destruct (publish_sink r w2) as (new & _ & _ & _ & Htr).
      destruct (reconcile_protocol (manifest_repositories m) [] w Idle I)
        as (stmts & p & Ht & Hp & Hok).
      rewrite Hrun in Ht, Hok. simpl in Ht, Hok.
      exists stmts, p. rewrite Hd. simpl. destruct Hs.
      split; [congruence|]. split; [assumption|].
      destruct r as [locs|e]; simpl; [intros _; now apply (Hok locs)|].
      discriminate.
    + destruct (discover_fetch_throws env w Hc Hfetch) as (w' & Hd & Hs).
      exists [], Idle. rewrite Hd, app_nil_r. simpl. destruct Hs.
      split; [congruence|]. split; [reflexivity | discriminate].
  - rewrite (discover_not_connected env w Hc). exists [], Idle.
    rewrite app_nil_r. simpl. split; [reflexivity|].
    split; [reflexivity | discriminate].
Qed.

(** X7. A pass whose store calls all succeed keeps every registration time
    at or after the sighting time of its row; this covers every pass that
    returns normally. *)
Theorem successful_pass_keeps_registered_after_seen w :
  fst (discover env w) = Ok tt ->
  registered_after_seen (table w) ->
  registered_after_seen (table (snd (discover env w))).
Proof.
  intros Hok Hinv. destruct (connected w) eqn:Hc.
  - destruct (fst (fetchManifest env w)) as [m|e] eqn:Hfetch.
    + destruct (reconcile env (manifest_repositories m) [] w) as [r w2] eqn:Hrun.
      destruct (discover_after_fetch env w Hc Hfetch Hrun) as (w' & Hd & Hs).
      destruct (publish_sink r w2) as (new & _ & _ & Ht & _).
      rewrite Hd in Hok |- *. simpl in *. destruct Hs.
      destruct r as [locs|e]; [|discriminate].
      replace (table w') with (table w2) by congruence.
      exact (reconcile_registered_after_seen _ _ _ Hrun Hinv).
    + destruct (discover_fetch_throws env w Hc Hfetch) as (w' & Hd & Hs).
      rewrite Hd in Hok. discriminate.
  - rewrite (discover_not_connected env w Hc) in Hok. discriminate.
Qed.

End Protocol.

(** ** Passes in sequence *)

Lemma known_after_absent known repos k :
  (forall r, In r repos -> repoKey_of r <> k) ->
  known_after known repos k = known k.
Proof.
  revert known. induction repos as [|repo rest IH]; intros kn H; simpl;
    [reflexivity|].
  assert (Hrest : forall r, In r rest -> repoKey_of r <> k)
    by (intros r Hr; apply H; now right).
  destruct (needs_publication _); rewrite IH by assumption; [|reflexivity].
  unfold record_version.
  destruct (String.eqb_spec k (repoKey_of repo)) as [E|_]; [|reflexivity].
  exfalso. apply (H repo); [now left | congruence].
Qed.

(** The versions known after a pass are the last declarations of the
    manifest and, for the keys it does not list, what was known before. *)
Lemma known_after_previous_version known repos k :
  known_after known repos k = previous_version known repos k.
Proof.
  unfold previous_version.
  destruct (last_with_key k repos) as [r|] eqn:L.
  - now apply known_after_last.
  - apply known_after_absent. intros r Hr E.
    unfold last_with_key in L. apply in_rev in Hr.
    apply (find_none _ _ L) in Hr. apply String.eqb_neq in Hr. contradiction.
Qed.

Section Sequences.

Variables env1 env2 : Env.

(** Two passes in a row at the declared types, over manifests that may
    differ, when store and sink answer: the second pass emits the
    descriptors it classifies New or Changed against the last versions the
    first manifest declared and, for the keys it did not list, the versions
    the store held before; with pairwise distinct keys these are the
    descriptors whose version differs. *)
Theorem successive_passes_emit_the_difference w m1 m2 :
  connected w = true ->
  fault_free w ->
  fst (fetchManifest env1 w) = Ok m1 ->
  fst (fetchManifest env2 w) = Ok m2 ->
  let before :=
    previous_version (known_of (table w)) (manifest_repositories m1) in
  let changed := changed_repos before (manifest_repositories m2) in
  exists w1 w2,
    discover env1 w = (Ok tt, w1) /\
    discover env2 w1 = (Ok tt, w2) /\
    sink w2 =
      (sink w1 ++ if Nat.ltb 0 (List.length changed)
                  then [delta_mutation (map (createLocationEntity env2) changed)]
                  else [])%list /\
    (NoDup (map repoKey_of (manifest_repositories m2)) ->
     changed =
     filter (fun r => needs_publication
                        (classify (before (repoKey_of r)) (version r)))
            (manifest_repositories m2)).
Proof.
  intros Hc Hf Hf1 Hf2 before changed.
  destruct (@discover_fault_free env1 w m1 Hc Hf Hf1)
    as (w1 & Hd1 & Hc1 & Hff1 & _ & Hkn & _).
  assert (Hf2' : fst (fetchManifest env2 w1) = Ok m2)
    by now rewrite (fetchManifest_result env2 w1 w).
  destruct (@discover_fault_free env2 w1 m2 Hc1 Hff1 Hf2')
    as (w2 & Hd2 & _ & _ & Hsk & _).
  assert (Hext : forall k, known_of (table w1) k = before k).
  { intros k. rewrite Hkn. apply known_after_previous_version. }
  rewrite (changed_repos_ext _ _ (manifest_repositories m2) Hext) in Hsk.
  exists w1, w2. repeat split; try assumption.
  intros Hnd. now apply changed_repos_distinct_keys.
Qed.

End Sequences.

Section LostDelta.

Variable env : Env.

(** A rejected delta at the declared types: when the sink rejects the delta
    of a pass, the pass fails after the store was written, and the next pass
    over the same manifest (one that agrees on the version key by key) finds
    every descriptor Unchanged and hands the sink nothing. *)
Theorem sink_failure_loses_delta w m locs w2 e rest :
  connected w = true ->
  fst (fetchManifest env w) = Ok m ->
  consistent (manifest_repositories m) ->
  reconcile env (manifest_repositories m) [] w = (Ok locs, w2) ->
  locs <> [] ->
  faults w2 = Some e :: rest ->
  Forall (fun f => f = None) rest ->
  exists w1 w3,
    discover env w = (Throw e, w1) /\
    table w1 = table w2 /\
    sink w1 = sink w /\
    discover env w1 = (Ok tt, w3) /\
    sink w3 = sink w /\
    table w3 = table w2.
Proof.
  intros Hc Hfetch Hcons Hrun Hne Hfs Hrest.
  destruct (discover_after_fetch env w Hc Hfetch Hrun) as (w1 & Hd & Hs).
  destruct (reconcile_ok env _ _ _ Hrun) as (_ & Hkn & Hc2).
  pose proof (reconcile_sink env (manifest_repositories m) [] w) as [Hsk _].
  rewrite Hrun in Hsk. simpl in Hsk.
  simpl in Hd, Hs.
  assert (Hlen : Nat.ltb 0 (List.length locs) = true).
  { destruct locs; [contradiction | reflexivity]. }
  rewrite Hlen in Hd, Hs. unfold applyMutation in Hd, Hs.
  rewrite Hfs in Hd, Hs. simpl in Hd, Hs.
  destruct Hs as [Hst Hscl Hsfa Hstr Hssi Hsco].
  simpl in *.
  assert (Hc1 : connected w1 = true) by congruence.
  assert (Hf1 : fault_free w1).
  { unfold fault_free. now rewrite <- Hsfa. }
  assert (Hfetch1 : fst (fetchManifest env w1) = Ok m)
    by now rewrite (fetchManifest_result env w1 w).
  assert (Hall : forall r, In r (manifest_repositories m) ->
            exists row, select_first (repoKey_of r) (table w1) = Some row /\
                        manifest_version row = version r).
  { intros r Hr. rewrite <- Hst.
    pose proof (Hkn (repoKey_of r)) as Hk.
    rewrite (@known_after_consistent _ _ r Hcons Hr) in Hk.
    unfold known_of in Hk.
    destruct (select_first (repoKey_of r) (table w2)) as [row|];
      [|discriminate].
    exists row. split; [reflexivity|]. simpl in Hk. congruence. }
  destruct (@discover_all_unchanged env w1 m Hc1 Hf1 Hfetch1 Hall)
    as (w3 & Hd3 & Hsk3 & Ht3 & _).
  exists w1, w3. repeat split; congruence.
Qed.

End LostDelta.

(** ** Keys, names and construction *)

Local Transparent String.append.

Lemma append_assoc (a b c : string) : (a ++ b) ++ c = a ++ (b ++ c).
Proof. induction a as [|x a IH]; simpl; [reflexivity | now rewrite IH]. Qed.

Lemma append_length (a b : string) :
  String.length (a ++ b) = String.length a + String.length b.
Proof. induction a as [|x a IH]; simpl; [reflexivity | now rewrite IH]. Qed.

(** A string is cut in one way only at the first occurrence of [c]. *)
Lemma cut_unique c x1 y1 x2 y2 :
  lacks c x1 = true -> lacks c x2 = true ->
  x1 ++ String c y1 = x2 ++ String c y2 ->
  x1 = x2 /\ y1 = y2.
Proof.
  revert x2. induction x1 as [|a x1 IH]; intros [|b x2]; simpl; intros H1 H2 E.
  - injection E as <-. now split.
  - injection E as <- _. rewrite Ascii.eqb_refl in H2. discriminate.
  - injection E as -> _. rewrite Ascii.eqb_refl in H1. discriminate.
  - injection E as <- E.
    apply andb_true_iff in H1 as [_ H1]. apply andb_true_iff in H2 as [_ H2].
    destruct (IH x2 H1 H2 E) as [-> ->]. now split.
Qed.

(** X10. Workspaces do not contain a slash on Bitbucket; for such
    descriptors the store key [workspace/repoSlug] determines both parts, so
    two repositories never share a version record. *)
Theorem repoKey_is_injective r1 r2 :
  lacks "/" (workspace r1) = true ->
  lacks "/" (workspace r2) = true ->
  repoKey_of r1 = repoKey_of r2 ->
  workspace r1 = workspace r2 /\ repoSlug r1 = repoSlug r2.
Proof.
  unfold repoKey_of. intros H1 H2 E.
  change ("/" ++ repoSlug r1) with (String "/" (repoSlug r1)) in E.
  change ("/" ++ repoSlug r2) with (String "/" (repoSlug r2)) in E.
  now apply cut_unique with "/"%char.
Qed.

Lemma repoKey_is_injective_witness :
  workspace Sample.backend_1_0_0 = workspace Sample.backend_1_0_1 /\
  repoSlug Sample.backend_1_0_0 = repoSlug Sample.backend_1_0_1.
Proof.
  apply (@repoKey_is_injective Sample.backend_1_0_0 Sample.backend_1_0_1);
    reflexivity.
Defined.

(** With a slash in a workspace the key is ambiguous. *)
Lemma repoKey_collides_on_slash i1 i2 a b c v1 v2 :
  repoKey_of (mkRepo i1 (a ++ "/" ++ b) c v1)
  = repoKey_of (mkRepo i2 a (b ++ "/" ++ c) v2).
Proof. unfold repoKey_of. simpl. now rewrite !append_assoc. Qed.

(** X11. The name of a location joins workspace and slug with a dash, which
    both may contain: the repositories [a-b/c] and [a/b-c] have different
    store keys but locations of the same name. *)
Theorem location_names_collide env i1 i2 a b c v1 v2 :
  lacks "/" a = true ->
  lacks "/" b = true ->
  let r1 := mkRepo i1 (a ++ "-" ++ b) c v1 in
  let r2 := mkRepo i2 a (b ++ "-" ++ c) v2 in
  metadata_name (createLocationEntity env r1)
    = metadata_name (createLocationEntity env r2) /\
  repoKey_of r1 <> repoKey_of r2.
Proof.
  intros Ha Hb r1 r2. split.
  - unfold createLocationEntity, r1, r2. simpl. now rewrite !append_assoc.
  - intros E. apply repoKey_is_injective in E as [E _]; simpl in *.
    + apply (f_equal String.length) in E. rewrite append_length in E.
      simpl in E. lia.
    + clear E. induction a as [|x a IH]; simpl in *.
      * exact Hb.
      * apply andb_true_iff in Ha as [Hx Ha]. rewrite Hx. simpl. now apply IH.
    + exact Ha.
Qed.

Lemma location_names_collide_witness :
  let env := Sample.serving [] in
  let r1 := mkRepo "1" ("my" ++ "-" ++ "team") "api" "1.0.0" in
  let r2 := mkRepo "2" "my" ("team" ++ "-" ++ "api") "1.0.0" in
  metadata_name (createLocationEntity env r1)
    = metadata_name (createLocationEntity env r2) /\
  repoKey_of r1 <> repoKey_of r2.
Proof.
  apply (@location_names_collide (Sample.serving []) "1" "2" "my" "team" "api"
           "1.0.0" "1.0.0"); reflexivity.
Defined.

(** X12. A location depends on workspace, slug and version only (the [id] of
    the descriptor is not used), and it determines the store key and the
    version of its descriptor. *)
Theorem location_identifies_key_and_version env r1 r2 :
  (workspace r1 = workspace r2 -> repoSlug r1 = repoSlug r2 ->
   version r1 = version r2 ->
   createLocationEntity env r1 = createLocationEntity env r2) /\
  (createLocationEntity env r1 = createLocationEntity env r2 ->
   repoKey_of r1 = repoKey_of r2 /\ version r1 = version r2).
Proof.
  split.
  - intros Hw Hs Hv. unfold createLocationEntity. now rewrite Hw, Hs, Hv.
  - unfold createLocationEntity, repoKey_of. intros E.
    injection E as _ Hk Hv _. now split.
Qed.

Lemma location_identifies_key_and_version_witness :
  let env := Sample.serving [] in
  let r1 := Sample.backend_1_0_0 in
  let r2 := mkRepo "renamed" "acme" "backend-service" "1.0.0" in
  createLocationEntity env r1 = createLocationEntity env r2.
Proof.
  apply (@location_identifies_key_and_version (Sample.serving [])
           Sample.backend_1_0_0
           (mkRepo "renamed" "acme" "backend-service" "1.0.0")); reflexivity.
Defined.

(** ** Connection *)

(** X14. [connect] sets the connection first: whether it succeeds or not,
    the provider is connected afterwards and no row, statement or mutation
    was added; the discovery task is scheduled, under the provider's name and
    with the configured frequency and timeout, exactly when [connect]
    succeeds, which it does exactly when neither the migrations nor the
    scheduler fail. *)
Theorem connect_outcomes schedule b :
  let r := fst (connect schedule b) in
  let b' := snd (connect schedule b) in
  connected (world b') = true /\
  table (world b') = table (world b) /\
  db_trace (world b') = db_trace (world b) /\
  sink (world b') = sink (world b) /\
  (r = Ok tt <->
   hd None (faults (world b)) = None /\
   hd None (tl (faults (world b))) = None) /\
  (r = Ok tt ->
   tasks b' = (tasks b ++ [mkTask "bitbucket-manifest-discover"
                                  (frequency schedule) (timeout schedule)])%list) /\
  (forall e, r = Throw e -> tasks b' = tasks b).
Proof.
  unfold connect, set_connection, runMigrations, migrate_latest, bind, logger.
  simpl.
  destruct (faults (world b)) as [|[e1|] [|[e2|] fs]]; simpl;
    repeat split; try discriminate; auto;
    intros [H1 H2]; discriminate.
Qed.

Section Connected.

Variable env : Env.

(** X15. Before [connect], a pass fails with "Provider not connected" and
    does nothing, not even fetch or log; after a [connect] on a backend whose
    calls succeed, the scheduled pass over a fetched manifest succeeds and
    hands the sink the New and Changed descriptors. *)
Theorem connect_enables_discover schedule b m :
  connected (world b) = false ->
  fault_free (world b) ->
  fst (fetchManifest env (world b)) = Ok m ->
  let changed :=
    changed_repos (known_of (table (world b))) (manifest_repositories m) in
  discover env (world b)
    = (Throw (new_Error "Provider not connected"), world b) /\
  exists b' w',
    connect schedule b = (Ok tt, b') /\
    discover env (world b') = (Ok tt, w') /\
    sink w' =
      (sink (world b)
         ++ if Nat.ltb 0 (List.length changed)
            then [delta_mutation (map (createLocationEntity env) changed)]
            else [])%list.
Proof.
  intros Hc Hf Hfetch changed. split; [now apply discover_not_connected|].
  destruct (connect_outcomes schedule b)
    as (Hc' & Ht & _ & Hsk & Hok & _).
  assert (Hr : fst (connect schedule b) = Ok tt).
  { apply Hok. unfold fault_free in Hf.
    destruct (faults (world b)) as [|f1 [|f2 fs]]; simpl; auto;
      inversion Hf as [|? ? H1 H2]; subst; auto.
    inversion H2; subst; auto. }
  assert (Hf' : fault_free (world (snd (connect schedule b)))).
  { unfold connect, set_connection, runMigrations, migrate_latest, bind, logger.
    unfold fault_free in *. simpl.
    destruct (faults (world b)) as [|f1 [|f2 fs]]; simpl;
      repeat match goal with
             | H : Forall _ (_ :: _) |- _ => inversion H; clear H; subst
             end; simpl; auto. }
  assert (Hfetch' : fst (fetchManifest env (world (snd (connect schedule b)))) = Ok m)
    by now rewrite (fetchManifest_result env _ (world b)).
  destruct (@discover_fault_free env _ m Hc' Hf' Hfetch')
    as (w' & Hd & _ & _ & Hsk' & _).
  exists (snd (connect schedule b)), w'. split; [|split].
  - rewrite <- Hr. now destruct (connect schedule b).
  - exact Hd.
  - rewrite Hsk', Hsk. unfold changed. now rewrite Ht.
Qed.

End Connected.

Lemma connect_enables_discover_witness :
  let env := Sample.serving [Sample.backend_1_0_0] in
  let schedule := mkSchedule (mkDuration (Some 1) None) (mkDuration None (Some 5)) in
  let b := Sample.unconnected in
  let changed :=
    changed_repos (known_of (table (world b)))
                  (manifest_repositories (Sample.manifest_of [Sample.backend_1_0_0])) in
  discover env (world b)
    = (Throw (new_Error "Provider not connected"), world b) /\
  exists b' w',
    connect schedule b = (Ok tt, b') /\
    discover env (world b') = (Ok tt, w') /\
    sink w' =
      (sink (world b)
         ++ if Nat.ltb 0 (List.length changed)
            then [delta_mutation (map (createLocationEntity env) changed)]
            else [])%list.
Proof.
  apply (@connect_enables_discover
           (Sample.serving [Sample.backend_1_0_0])
           (mkSchedule (mkDuration (Some 1) None) (mkDuration None (Some 5)))
           Sample.unconnected
           (Sample.manifest_of [Sample.backend_1_0_0])).
  - reflexivity.
  - unfold fault_free. simpl. constructor.
  - vm_compute. reflexivity.
Defined.

(** ** Instances of the further properties *)

Lemma discover_keeps_primary_key_witness :
  primary_key
    (table (snd (discover (Sample.serving [Sample.backend_1_0_1; Sample.frontend_2_1_3])
                          Sample.seen_backend))).
Proof.
  apply (@discover_keeps_primary_key
           (Sample.serving [Sample.backend_1_0_1; Sample.frontend_2_1_3])
           Sample.seen_backend).
  unfold primary_key. simpl. constructor; [intros [] | constructor].
Defined.

Lemma empty_manifest_is_a_noop_witness :
  exists w',
    discover (Sample.serving []) Sample.failing_upsert = (Ok tt, w') /\
    same_state Sample.failing_upsert w'.
Proof.
  apply (@empty_manifest_is_a_noop (Sample.serving []) Sample.failing_upsert
           (Sample.manifest_of [])); reflexivity.
Defined.

Lemma successful_pass_keeps_registered_after_seen_witness :
  registered_after_seen
    (table (snd (discover (Sample.serving [Sample.backend_1_0_1]) Sample.seen_both))).
Proof.
  apply (@successful_pass_keeps_registered_after_seen
           (Sample.serving [Sample.backend_1_0_1]) Sample.seen_both).
  - vm_compute. reflexivity.
  - unfold registered_after_seen. simpl. repeat constructor.
Defined.

(** The hypothesis is needed: when the registration of a Changed descriptor
    fails, its row carries the new sighting and the old registration. *)
Example failed_registration_breaks_order :
  let w := mkWorld [mkRow "acme/backend-service" "1.0.0" 1 (Some 2)] 10
                   [None; None; Some Sample.db_down] [] [] [] true in
  table (snd (discover (Sample.serving [Sample.backend_1_0_1]) w))
  = [mkRow "acme/backend-service" "1.0.1" 11 (Some 2)].
Proof. vm_compute. reflexivity. Qed.

Lemma successive_passes_emit_the_difference_witness :
  let env1 := Sample.serving [Sample.backend_1_0_0; Sample.frontend_2_1_3] in
  let env2 := Sample.serving [Sample.backend_1_0_1; Sample.frontend_2_1_3] in
  let w := Sample.fresh in
  let m1 := Sample.manifest_of [Sample.backend_1_0_0; Sample.frontend_2_1_3] in
  let m2 := Sample.manifest_of [Sample.backend_1_0_1; Sample.frontend_2_1_3] in
  let before :=
    previous_version (known_of (table w)) (manifest_repositories m1) in
  let changed := changed_repos before (manifest_repositories m2) in
  exists w1 w2,
    discover env1 w = (Ok tt, w1) /\
    discover env2 w1 = (Ok tt, w2) /\
    sink w2 =
      (sink w1 ++ if Nat.ltb 0 (List.length changed)
                  then [delta_mutation (map (createLocationEntity env2) changed)]
                  else [])%list /\
    (NoDup (map repoKey_of (manifest_repositories m2)) ->
     changed =
     filter (fun r => needs_publication
                        (classify (before (repoKey_of r)) (version r)))
            (manifest_repositories m2)).
Proof.
  apply (@successive_passes_emit_the_difference
           (Sample.serving [Sample.backend_1_0_0; Sample.frontend_2_1_3])
           (Sample.serving [Sample.backend_1_0_1; Sample.frontend_2_1_3])
           Sample.fresh
           (Sample.manifest_of [Sample.backend_1_0_0; Sample.frontend_2_1_3])
           (Sample.manifest_of [Sample.backend_1_0_1; Sample.frontend_2_1_3])).
  - reflexivity.
  - unfold fault_free. simpl. constructor.
  - vm_compute. reflexivity.
  - vm_compute. reflexivity.
Defined.

Lemma sink_failure_loses_delta_witness :
  let env := Sample.serving [Sample.backend_1_0_0] in
  let w := Sample.failing_sink in
  let w2 := snd (reconcile env [Sample.backend_1_0_0] [] w) in
  exists w1 w3,
    discover env w = (Throw Sample.db_down, w1) /\
    table w1 = table w2 /\
    sink w1 = sink w /\
    discover env w1 = (Ok tt, w3) /\
    sink w3 = sink w /\
    table w3 = table w2.
Proof.
  apply (@sink_failure_loses_delta
           (Sample.serving [Sample.backend_1_0_0])
           Sample.failing_sink
           (Sample.manifest_of [Sample.backend_1_0_0])
           [createLocationEntity (Sample.serving [Sample.backend_1_0_0])
                                 Sample.backend_1_0_0]
           (snd (reconcile (Sample.serving [Sample.backend_1_0_0])
                           [Sample.backend_1_0_0] [] Sample.failing_sink))
           Sample.db_down []).
  - reflexivity.
  - vm_compute. reflexivity.
  - intros r1 r2 H1 H2 _. simpl in H1, H2.
    destruct H1 as [<-|[]], H2 as [<-|[]]. reflexivity.
  - vm_compute. reflexivity.
  - discriminate.
  - vm_compute. reflexivity.
  - constructor.
Defined.

(** ** The single-branch provider *)

Section SingleBranchRun.

Import SingleBranch.
Local Open Scope single_branch_scope.

Variable env : SingleBranch.Env.

Lemma add_requests_nil w : add_requests [] w = w.
Proof. destruct w. unfold add_requests. simpl. now rewrite app_nil_r. Qed.

Lemma add_requests_app r1 r2 w :
  add_requests r2 (add_requests r1 w) = add_requests (r1 ++ r2)%list w.
Proof. unfold add_requests. simpl. now rewrite app_assoc. Qed.

(** Along a walk the loop spends one unit of fuel per page and carries on
    at the end of the walk with the slugs it met. *)
Lemma pages_walk auth url ps url' :
  Walk env auth url ps url' ->
  forall fuel repos w,
    pages env fuel auth url repos w =
    if Nat.ltb fuel (List.length ps) then None
    else pages env (fuel - List.length ps) auth url'
           (repos ++ flat_map page_slugs ps)%list
           (add_requests (map (fun u => (u, api_headers auth)) (visited url ps)) w).
Proof.
  induction 1 as [url | url res data rest url' Hne Hf Hok Hj Hw IH];
    intros fuel repos w.
  - simpl. now rewrite Nat.sub_0_r, app_nil_r, add_requests_nil.
  - apply String.eqb_neq in Hne.
    destruct fuel as [|fuel]; simpl; rewrite Hne; [reflexivity|].
    unfold bind, await_fetch. rewrite Hf, Hok, Hj. simpl.
    rewrite IH.
    change (Nat.ltb (S fuel) (S (List.length rest)))
      with (Nat.ltb fuel (List.length rest)).
    destruct (Nat.ltb fuel (List.length rest)); [reflexivity|].
    rewrite <- app_assoc. f_equal.
    unfold add_requests. simpl. now rewrite <- app_assoc.
Qed.

Lemma collect_run repos : forall acc w,
  collect env repos acc w =
  Some (Ok (acc ++ map (location_of env)
                       (filter (fun repo => readUrl env (target_of env repo)) repos))%list,
        mkWorld (connected w) (requests w)
                (probes w ++ map (target_of env) repos)%list
                (console w
                   ++ map (fun repo =>
                             ("xxxxxxxxxxxxxxxxxxxxxxxxChecking existence of:xxxxxxxxxxxxxxxxxxxx",
                              Some (target_of env repo))) repos)%list
                (infos w) (published w)).
Proof.
  induction repos as [|repo rest IH]; intros acc w; simpl.
  - destruct w. unfold ret. simpl. now rewrite !app_nil_r.
  - unfold bind, console_log, exists_. simpl. rewrite IH. simpl.
    rewrite <- !app_assoc. simpl.
    destruct (readUrl env (target_of env repo)); simpl;
      now rewrite <- ?app_assoc.
Qed.


(** X17. With credentials, when the API answers page after page until a
    page without [next], and the fuel covers the pages, [listRepos] returns
    the non-empty slugs of all pages in order, after one request per page
    and nothing else. *)
Theorem single_branch_listRepos_collects_pages ps fuel w :
  truthy (BITBUCKET_USERNAME env) = true ->
  truthy (BITBUCKET_TOKEN env) = true ->
  Walk env (auth_of env) (first_page_url env) ps "" ->
  List.length ps <= fuel ->
  exists w',
    listRepos env fuel w = Some (Ok (flat_map page_slugs ps), w') /\
    requests w' =
      (requests w
         ++ map (fun u => (u, api_headers (auth_of env)))
                (visited (first_page_url env) ps))%list /\
    probes w' = probes w /\
    published w' = published w.
Proof.
  intros Hu Ht Hw Hfuel.
  unfold listRepos, bind, console_log. simpl. rewrite Hu, Ht. simpl.
  rewrite (pages_walk Hw).
  assert (Hlt : Nat.ltb fuel (List.length ps) = false)
    by (apply Nat.ltb_ge; lia).
  rewrite Hlt.
  destruct (fuel - List.length ps); simpl; unfold ret, logger_info; simpl;
    (eexists; split; [reflexivity|]; simpl; repeat split).
Qed.

(** X18. A page that is not a success fails the whole run with the status
    and the body of that page: the slugs of the pages before it are dropped,
    no repository is probed and no mutation is applied. *)
Theorem single_branch_failed_page_aborts ps url res fuel w :
  connected w = true ->
  truthy (BITBUCKET_USERNAME env) = true ->
  truthy (BITBUCKET_TOKEN env) = true ->
  Walk env (auth_of env) (first_page_url env) ps url ->
  url <> "" ->
  fetch env url (api_headers (auth_of env)) = ApiResponded res ->
  ok res = false ->
  List.length ps < fuel ->
  exists w',
    run env fuel w
      = Some (Throw (new_Error ("Bitbucket listRepos failed ("
                                  ++ string_of_nat (status res) ++ "): "
                                  ++ body res)), w') /\
    probes w' = probes w /\
    published w' = published w.
Proof.
  intros Hc Hu Ht Hw Hne Hf Hok Hfuel.
  unfold run. rewrite Hc. simpl.
  unfold listRepos, bind at 1 2 3, console_log. simpl. rewrite Hu, Ht. simpl.
  rewrite (pages_walk Hw).
  assert (Hlt : Nat.ltb fuel (List.length ps) = false)
    by (apply Nat.ltb_ge; lia).
  rewrite Hlt.
  destruct (fuel - List.length ps) as [|n] eqn:E; [lia|].
  simpl. apply String.eqb_neq in Hne. rewrite Hne.
  unfold bind, await_fetch. rewrite Hf, Hok. simpl.
  eexists. repeat split.
Qed.

(** X19. The loop does not notice a cycle: when the [next] links lead back
    to the first page, [run] never returns, however many pages it is allowed
    to fetch. *)
Theorem single_branch_cyclic_pages_never_return ps fuel w :
  connected w = true ->
  truthy (BITBUCKET_USERNAME env) = true ->
  truthy (BITBUCKET_TOKEN env) = true ->
  ps <> [] ->
  Walk env (auth_of env) (first_page_url env) ps (first_page_url env) ->
  run env fuel w = None.
Proof.
  intros Hc Hu Ht Hps Hw.
  assert (Hloop : forall n repos w0,
            pages env n (auth_of env) (first_page_url env) repos w0 = None).
  { induction n as [n IH] using lt_wf_ind. intros repos w0.
    rewrite (pages_walk Hw).
    destruct (Nat.ltb n (List.length ps)) eqn:E; [reflexivity|].
    apply IH. apply Nat.ltb_ge in E.
    destruct ps; [contradiction | simpl in *; lia]. }
  unfold run. rewrite Hc. simpl.
  unfold listRepos, bind, console_log. simpl. rewrite Hu, Ht. simpl.
  now rewrite Hloop.
Qed.

(** X20. When [listRepos] returns and the connection accepts the mutation,
    [run] probes the catalog file of every repository once, in order, and
    applies one full mutation with the locations of the repositories whose
    file could be read, filed under the provider's name; the mutation is
    applied even when no file could be read and it is empty. *)
Theorem single_branch_publishes_existing fuel w repos w1 :
  connected w = true ->
  applyMutation_error env = None ->
  listRepos env fuel w = Some (Ok repos, w1) ->
  exists w',
    run env fuel w = Some (Ok tt, w') /\
    probes w' = (probes w1 ++ map (target_of env) repos)%list /\
    published w' =
      (published w1
         ++ [mkFull "full"
               (map (fun repo => mkDeferred (location_of env repo)
                                            (getProviderName env))
                    (filter (fun repo => readUrl env (target_of env repo))
                            repos))])%list.
Proof.
  intros Hc Ha Hl. unfold run. rewrite Hc. simpl.
  unfold bind at 1. rewrite Hl.
  unfold bind at 1. rewrite collect_run. simpl.
  unfold bind, applyMutation, logger_info. rewrite Ha. simpl.
  eexists. split; [reflexivity|]. simpl. split; [reflexivity|].
  unfold full_mutation. now rewrite map_map.
Qed.

End SingleBranchRun.

(** ** Instances for the single-branch provider *)

Lemma sample_walk_two_pages :
  SingleBranch.Walk Sample.sb_env (SingleBranch.auth_of Sample.sb_env)
    (SingleBranch.first_page_url Sample.sb_env)
    [Sample.sb_page1; Sample.sb_page2] "".
Proof.
  eapply SingleBranch.walk_cons;
    [discriminate | vm_compute; reflexivity | reflexivity | reflexivity |].
  eapply SingleBranch.walk_cons;
    [discriminate | vm_compute; reflexivity | reflexivity | reflexivity |].
  apply SingleBranch.walk_nil.
Defined.


Lemma single_branch_listRepos_collects_pages_witness :
  exists w',
    SingleBranch.listRepos Sample.sb_env 5 Sample.sb_world
      = Some (Ok (flat_map SingleBranch.page_slugs [Sample.sb_page1; Sample.sb_page2]),
              w') /\
    SingleBranch.requests w' =
      (SingleBranch.requests Sample.sb_world
         ++ map (fun u => (u, SingleBranch.api_headers
                                (SingleBranch.auth_of Sample.sb_env)))
                (SingleBranch.visited (SingleBranch.first_page_url Sample.sb_env)
                   [Sample.sb_page1; Sample.sb_page2]))%list /\
    SingleBranch.probes w' = SingleBranch.probes Sample.sb_world /\
    SingleBranch.published w' = SingleBranch.published Sample.sb_world.
Proof.
  apply (@single_branch_listRepos_collects_pages Sample.sb_env
           [Sample.sb_page1; Sample.sb_page2] 5 Sample.sb_world).
  - reflexivity.
  - reflexivity.
  - exact sample_walk_two_pages.
  - simpl. lia.
Defined.

(** The slugs of the sample workspace: the item without a slug is skipped. *)
Example sample_slugs :
  flat_map SingleBranch.page_slugs [Sample.sb_page1; Sample.sb_page2]
  = ["api"; "web"; "docs"].
Proof. reflexivity. Qed.

Lemma single_branch_failed_page_aborts_witness :
  exists w',
    SingleBranch.run Sample.sb_env_broken 5 Sample.sb_world
      = Some (Throw (new_Error ("Bitbucket listRepos failed ("
                                  ++ string_of_nat 502 ++ "): " ++ "bad gateway")),
              w') /\
    SingleBranch.probes w' = SingleBranch.probes Sample.sb_world /\
    SingleBranch.published w' = SingleBranch.published Sample.sb_world.
Proof.
  apply (@single_branch_failed_page_aborts Sample.sb_env_broken
           [Sample.sb_page1]
           "https://api.bitbucket.org/2.0/repositories/acme?page=2"
           (SingleBranch.mkApiResponse false 502 "bad gateway" SingleBranch.JsonNull)
           5 Sample.sb_world).
  - reflexivity.
  - reflexivity.
  - reflexivity.
  - eapply SingleBranch.walk_cons;
      [discriminate | vm_compute; reflexivity | reflexivity | reflexivity |].
    apply SingleBranch.walk_nil.
  - discriminate.
  - vm_compute. reflexivity.
  - reflexivity.
  - simpl. lia.
Defined.

Lemma single_branch_cyclic_pages_never_return_witness :
  SingleBranch.run Sample.sb_env_cyclic 1000 Sample.sb_world = None.
Proof.
  apply (@single_branch_cyclic_pages_never_return Sample.sb_env_cyclic
           [SingleBranch.mkPage
              (Some [SingleBranch.mkItem (Some "api")])
              (Some "https://api.bitbucket.org/2.0/repositories/acme?pagelen=100")]
           1000 Sample.sb_world).
  - reflexivity.
  - reflexivity.
  - reflexivity.
  - discriminate.
  - eapply SingleBranch.walk_cons;
      [discriminate | vm_compute; reflexivity | reflexivity | reflexivity |].
    apply SingleBranch.walk_nil.
Defined.

Lemma single_branch_publishes_existing_witness :
  let w1 := match SingleBranch.listRepos Sample.sb_env 5 Sample.sb_world with
            | Some (_, w1) => w1
            | None => Sample.sb_world
            end in
  exists w',
    SingleBranch.run Sample.sb_env 5 Sample.sb_world = Some (Ok tt, w') /\
    SingleBranch.probes w' =
      (SingleBranch.probes w1
         ++ map (SingleBranch.target_of Sample.sb_env) ["api"; "web"; "docs"])%list /\
    SingleBranch.published w' =
      (SingleBranch.published w1
         ++ [SingleBranch.mkFull "full"
               (map (fun repo =>
                       SingleBranch.mkDeferred
                         (SingleBranch.location_of Sample.sb_env repo)
                         (SingleBranch.getProviderName Sample.sb_env))
                    (filter (fun repo =>
                               SingleBranch.readUrl Sample.sb_env
                                 (SingleBranch.target_of Sample.sb_env repo))
                            ["api"; "web"; "docs"]))])%list.
Proof.
  apply (@single_branch_publishes_existing Sample.sb_env 5 Sample.sb_world
           ["api"; "web"; "docs"]
           (match SingleBranch.listRepos Sample.sb_env 5 Sample.sb_world with
            | Some (_, w1) => w1
            | None => Sample.sb_world
            end)).
  - reflexivity.
  - reflexivity.
  - vm_compute. reflexivity.
Defined.

(** The run over the sample workspace: three probes, one location. *)
Example sample_run_publishes_api :
  option_map (fun rw => (fst rw, SingleBranch.published (snd rw)))
             (SingleBranch.run Sample.sb_env 5 Sample.sb_world)
  = Some (Ok tt,
          [SingleBranch.mkFull "full"
             [SingleBranch.mkDeferred
                (SingleBranch.mkLocation
                   "backstage.io/v1alpha1" "Location" "bb-api-release/1"
                   [("backstage.io/managed-by-location",
                     "url:https://bitbucket.org/acme/api/raw/release%2F1/catalog-info.yaml");
                    ("backstage.io/managed-by-origin-location",
                     "url:https://bitbucket.org/acme/api/raw/release%2F1/catalog-info.yaml")]
                   [("branch", "release/1"); ("workspace", "acme"); ("repo", "api")]
                   "url"
                   ["https://bitbucket.org/acme/api/raw/release%2F1/catalog-info.yaml"])
                "bitbucket-single-branch:acme:release/1"]]).
Proof. vm_compute. reflexivity. Qed.

(** ** The provider over parsed values *)

Lemma try_catch_ext {A} (m m' : M A) h w :
  m w = m' w -> try_catch m h w = try_catch m' h w.
Proof. intros H. unfold try_catch. now rewrite H. Qed.

Lemma bind_ext_m {A B} (m m' : M A) (k : A -> M B) w :
  m w = m' w -> bind m k w = bind m' k w.
Proof. intros H. unfold bind. now rewrite H. Qed.

Lemma bind_ext_k {A B} (m : M A) (k k' : A -> M B) w :
  (forall a w', k a w' = k' a w') -> bind m k w = bind m k' w.
Proof.
  intros H. unfold bind. destruct (m w) as [[a|e] w']; [apply H | reflexivity].
Qed.

Section ParsedProvider.

Variable env : Parsed.Environment.

(** On a descriptor whose version is a string the two embeddings of
    [processRepository] are the same computation. *)
Lemma processRepository_of_text repo w :
  Parsed.is_text repo = true ->
  Parsed.processRepository env repo w
  = processRepository (Parsed.typed env) (Parsed.cast repo) w.
Proof.
  unfold Parsed.is_text. destruct repo as [i ws slug [v|v]]; simpl;
    [intros _ | discriminate].
  reflexivity.
Qed.

Lemma reconcile_of_text repos : forall acc w,
  Parsed.text_versions repos ->
  Parsed.reconcile env repos acc w
  = reconcile (Parsed.typed env) (map Parsed.cast repos) acc w.
Proof.
  induction repos as [|repo rest IH]; intros acc w H; simpl; [reflexivity|].
  inversion H as [|? ? Hrepo Hrest]; subst.
  unfold bind. rewrite (processRepository_of_text repo w Hrepo).
  destruct (processRepository (Parsed.typed env) (Parsed.cast repo) w)
    as [[res|e] w1]; [now apply IH | reflexivity].
Qed.

Lemma manifest_repositories_cast m :
  manifest_repositories (Parsed.cast_document m)
  = map Parsed.cast (Parsed.manifest_repositories m).
Proof.
  unfold manifest_repositories, Parsed.manifest_repositories, Parsed.cast_document.
  simpl. destruct (Parsed.spec m) as [[[repos|]]|]; reflexivity.
Qed.

(** The typed [fetchManifest] returns the cast of what the parsed one
    returns. *)
Lemma fetchManifest_cast w :
  fetchManifest (Parsed.typed env) w =
  match Parsed.fetchManifest env w with
  | (Ok m, w') => (Ok (Parsed.cast_document m), w')
  | (Throw e, w') => (Throw e, w')
  end.
Proof.
  unfold fetchManifest, Parsed.fetchManifest, bind, logger, throw, ret. simpl.
  destruct (Parsed.byUrl env (manifestUrl (Parsed.config env))) as [c|];
    [|reflexivity].
  destruct (Parsed.http_fetch env (manifestUrl (Parsed.config env))
              (request_headers (Parsed.typed env) c)) as [e|r]; [reflexivity|].
  destruct (ok r); simpl; [|reflexivity].
  destruct (Parsed.yaml_parse env (text r)) as [e| |m]; simpl; try reflexivity.
  destruct m as [a k n [[[repos|]]|]]; reflexivity.
Qed.

Lemma parsed_fetchManifest_result w w' :
  fst (Parsed.fetchManifest env w) = fst (Parsed.fetchManifest env w').
Proof.
  unfold Parsed.fetchManifest, bind, logger, throw, ret.
  repeat match goal with
         | |- context [match ?x with _ => _ end] => destruct x
         end; reflexivity.
Qed.

Lemma fetchManifest_cast_ok w m :
  fst (Parsed.fetchManifest env w) = Ok m ->
  fst (fetchManifest (Parsed.typed env) w) = Ok (Parsed.cast_document m).
Proof.
  intros H. rewrite fetchManifest_cast.
  destruct (Parsed.fetchManifest env w) as [[m'|e] w']; simpl in *;
    [congruence | discriminate].
Qed.

(** When the versions of the fetched manifest are strings, a pass is the
    pass of the typed embedding. *)
Lemma discover_of_text w :
  (forall m, fst (Parsed.fetchManifest env w) = Ok m ->
             Parsed.text_versions (Parsed.manifest_repositories m)) ->
  Parsed.discover env w = discover (Parsed.typed env) w.
Proof.
  intros Htext. unfold Parsed.discover, discover.
  destruct (negb (connected w)); [reflexivity|].
  match goal with |- ?L = _ => set (lhs := L) end.
  unfold bind at 1. unfold logger at 1. cbv beta iota.
  subst lhs. unfold bind at 1. unfold logger at 1. cbv beta iota.
  match goal with |- try_catch _ _ ?w0 = _ => set (wA := w0) end.
  apply try_catch_ext.
  unfold bind at 1 5. rewrite fetchManifest_cast.
  pose proof (parsed_fetchManifest_result wA w) as Hres.
  destruct (Parsed.fetchManifest env wA) as [[m|e] w1]; simpl in Hres;
    [|reflexivity].
  specialize (Htext m (eq_sym Hres)).
  rewrite manifest_repositories_cast, length_map.
  apply bind_ext_k. intros _ w2. apply bind_ext_m.
  now apply reconcile_of_text.
Qed.

End ParsedProvider.

(** Nothing is New or Changed only when every descriptor is known as
    declared. *)
Lemma changed_repos_nil_inv known repos :
  changed_repos known repos = [] ->
  forall r, In r repos ->
    needs_publication (classify (known (repoKey_of r)) (version r)) = false.
Proof.
  induction repos as [|repo rest IH]; simpl; [intros _ r []|].
  destruct (needs_publication
              (classify (known (repoKey_of repo)) (version repo))) eqn:C;
    [discriminate|].
  intros H r [<-|Hr]; [assumption | now apply IH].
Qed.

Section ParsedPasses.

Variable env : Parsed.Environment.

(** C1, as the code has it.  For a manifest whose versions are all strings
    (none is read by the parser as a number or boolean) and whose descriptors
    agree on the version key by key, when the store and the sink answer, a
    second pass right after the first finds, for every descriptor, a record
    whose version is strictly equal to the declared one: it hands nothing to
    the sink, writes nothing and only reads each key once. *)
Theorem second_pass_is_empty_for_string_versions w m :
  connected w = true ->
  fault_free w ->
  fst (Parsed.fetchManifest env w) = Ok m ->
  Parsed.text_versions (Parsed.manifest_repositories m) ->
  consistent (map Parsed.cast (Parsed.manifest_repositories m)) ->
  exists w1 w2,
    Parsed.discover env w = (Ok tt, w1) /\
    Parsed.discover env w1 = (Ok tt, w2) /\
    (forall repo, In repo (Parsed.manifest_repositories m) ->
       exists row,
         select_first (repoKey_of (Parsed.cast repo)) (table w1) = Some row /\
         Parsed.strictly_equals (manifest_version row) (Parsed.version repo)
           = true) /\
    sink w2 = sink w1 /\
    table w2 = table w1 /\
    db_trace w2 =
      (db_trace w1
         ++ map (fun repo => SelectFirst (repoKey_of (Parsed.cast repo)))
                (Parsed.manifest_repositories m))%list.
Proof.
  intros Hc Hf Hfetch Htext Hcons.
  pose proof (fetchManifest_cast_ok env w Hfetch) as Hfetch'.
  rewrite <- manifest_repositories_cast in Hcons.
  destruct (@second_pass_is_empty (Parsed.typed env) w _ Hc Hf Hfetch' Hcons)
    as (w1 & w2 & Hd1 & Hd2 & Hnil & Hsk & Ht & Htr).
  assert (Htext_at : forall w0 m0,
            fst (Parsed.fetchManifest env w0) = Ok m0 ->
            Parsed.text_versions (Parsed.manifest_repositories m0)).
  { intros w0 m0 H0. rewrite (parsed_fetchManifest_result env w0 w) in H0.
    congruence. }
  exists w1, w2.
  rewrite !discover_of_text by (apply Htext_at).
  split; [exact Hd1|]. split; [exact Hd2|]. split; [|split; [exact Hsk|split]].
  - intros repo Hin.
    assert (Hin' : In (Parsed.cast repo)
                      (manifest_repositories (Parsed.cast_document m))).
    { rewrite manifest_repositories_cast. now apply in_map. }
    pose proof (changed_repos_nil_inv _ _ Hnil _ Hin') as C.
    apply classify_unchanged_iff in C as (row & Hs & Hv).
    exists row. split; [exact Hs|].
    unfold Parsed.text_versions in Htext. rewrite Forall_forall in Htext.
    specialize (Htext repo Hin). unfold Parsed.is_text in Htext.
    destruct repo as [i ws slug [v|v]]; simpl in *; [|discriminate].
    now apply String.eqb_eq.
  - exact Ht.
  - rewrite Htr, manifest_repositories_cast, map_map. reflexivity.
Qed.

(** X9. When the sink rejects the delta of a pass over a manifest whose
    versions are all strings and agree key by key, the pass fails after the
    store was written, and the delta is lost: the next pass over the same
    manifest hands the sink nothing and changes no row. *)
Theorem rejected_delta_of_string_versions_is_lost w m locs w2 e rest :
  connected w = true ->
  fst (Parsed.fetchManifest env w) = Ok m ->
  Parsed.text_versions (Parsed.manifest_repositories m) ->
  consistent (map Parsed.cast (Parsed.manifest_repositories m)) ->
  Parsed.reconcile env (Parsed.manifest_repositories m) [] w = (Ok locs, w2) ->
  locs <> [] ->
  faults w2 = Some e :: rest ->
  Forall (fun f => f = None) rest ->
  exists w1 w3,
    Parsed.discover env w = (Throw e, w1) /\
    table w1 = table w2 /\
    sink w1 = sink w /\
    Parsed.discover env w1 = (Ok tt, w3) /\
    sink w3 = sink w /\
    table w3 = table w2.
Proof.
  intros Hc Hfetch Htext Hcons Hrun Hne Hfs Hrest.
  pose proof (fetchManifest_cast_ok env w Hfetch) as Hfetch'.
  rewrite (@reconcile_of_text env _ _ _ Htext) in Hrun.
  rewrite <- manifest_repositories_cast in Hcons, Hrun.
  destruct (@sink_failure_loses_delta (Parsed.typed env) w _ locs w2 e rest
              Hc Hfetch' Hcons Hrun Hne Hfs Hrest)
    as (w1 & w3 & Hd1 & Ht1 & Hs1 & Hd3 & Hs3 & Ht3).
  assert (Htext_at : forall w0 m0,
            fst (Parsed.fetchManifest env w0) = Ok m0 ->
            Parsed.text_versions (Parsed.manifest_repositories m0)).
  { intros w0 m0 H0. rewrite (parsed_fetchManifest_result env w0 w) in H0.
    congruence. }
  exists w1, w3. rewrite !discover_of_text by (apply Htext_at).
  repeat split; assumption.
Qed.

End ParsedPasses.

Section ParsedSequences.

Variables env1 env2 : Parsed.Environment.

(** X8. Two passes in a row over manifests whose versions are all strings,
    the second with pairwise distinct keys, when store and sink answer: the
    second pass emits exactly the descriptors of its manifest whose version
    differs from the last one the first manifest declared for the key or,
    for a key the first manifest did not list, from the one the store held
    before the first pass. *)
Theorem successive_passes_emit_the_differing_keys w m1 m2 :
  connected w = true ->
  fault_free w ->
  fst (Parsed.fetchManifest env1 w) = Ok m1 ->
  fst (Parsed.fetchManifest env2 w) = Ok m2 ->
  Parsed.text_versions (Parsed.manifest_repositories m1) ->
  Parsed.text_versions (Parsed.manifest_repositories m2) ->
  NoDup (map (fun repo => repoKey_of (Parsed.cast repo))
             (Parsed.manifest_repositories m2)) ->
  let before :=
    previous_version (known_of (table w))
                     (map Parsed.cast (Parsed.manifest_repositories m1)) in
  let differing :=
    filter (fun r => needs_publication
                       (classify (before (repoKey_of r)) (version r)))
           (map Parsed.cast (Parsed.manifest_repositories m2)) in
  exists w1 w2,
    Parsed.discover env1 w = (Ok tt, w1) /\
    Parsed.discover env2 w1 = (Ok tt, w2) /\
    sink w2 =
      (sink w1 ++ if Nat.ltb 0 (List.length differing)
                  then [delta_mutation
                          (map (createLocationEntity (Parsed.typed env2)) differing)]
                  else [])%list.
Proof.
  intros Hc Hf Hf1 Hf2 Ht1 Ht2 Hnd before differing.
  pose proof (fetchManifest_cast_ok env1 w Hf1) as Hf1'.
  pose proof (fetchManifest_cast_ok env2 w Hf2) as Hf2'.
  destruct (@successive_passes_emit_the_difference
              (Parsed.typed env1) (Parsed.typed env2) w _ _ Hc Hf Hf1' Hf2')
    as (w1 & w2 & Hd1 & Hd2 & Hsk & Hfilter).
  rewrite !manifest_repositories_cast in Hsk, Hfilter.
  rewrite map_map in Hfilter. specialize (Hfilter Hnd).
  rewrite Hfilter in Hsk.
  exists w1, w2.
  rewrite (discover_of_text env1 w), (discover_of_text env2 w1).
  - repeat split; assumption.
  - intros m0 H0. rewrite (parsed_fetchManifest_result env2 w1 w) in H0.
    congruence.
  - intros m0 H0. congruence.
Qed.

End ParsedSequences.

Lemma second_pass_is_empty_for_string_versions_witness :
  let env := Sample.parsing [Sample.parsed_backend_1_0_0; Sample.parsed_frontend_2_1_3] in
  let m := Sample.document_of [Sample.parsed_backend_1_0_0; Sample.parsed_frontend_2_1_3] in
  exists w1 w2,
    Parsed.discover env Sample.fresh = (Ok tt, w1) /\
    Parsed.discover env w1 = (Ok tt, w2) /\
    (forall repo, In repo (Parsed.manifest_repositories m) ->
       exists row,
         select_first (repoKey_of (Parsed.cast repo)) (table w1) = Some row /\
         Parsed.strictly_equals (manifest_version row) (Parsed.version repo)
           = true) /\
    sink w2 = sink w1 /\
    table w2 = table w1 /\
    db_trace w2 =
      (db_trace w1
         ++ map (fun repo => SelectFirst (repoKey_of (Parsed.cast repo)))
                (Parsed.manifest_repositories m))%list.
Proof.
  apply (@second_pass_is_empty_for_string_versions
           (Sample.parsing [Sample.parsed_backend_1_0_0; Sample.parsed_frontend_2_1_3])
           Sample.fresh
           (Sample.document_of [Sample.parsed_backend_1_0_0; Sample.parsed_frontend_2_1_3])).
  - reflexivity.
  - unfold fault_free. simpl. constructor.
  - vm_compute. reflexivity.
  - repeat constructor.
  - intros r1 r2 H1 H2 Hk. simpl in H1, H2.
    destruct H1 as [<-|[<-|[]]], H2 as [<-|[<-|[]]];
      solve [reflexivity | discriminate Hk].
Defined.

(** The condition on the versions is needed: a descriptor declared with
    [version: 2] is stored as the text "2", never strictly equals it, and
    is emitted again by every pass. *)
Example numeric_version_is_reemitted :
  let env := Sample.parsing [Sample.parsed_backend_2] in
  let w1 := snd (Parsed.discover env Sample.fresh) in
  let w2 := snd (Parsed.discover env w1) in
  fst (Parsed.discover env Sample.fresh) = Ok tt /\
  table w1 = [mkRow "acme/backend-service" "2" 1 (Some 2)] /\
  fst (Parsed.discover env w1) = Ok tt /\
  sink w2 =
    (sink w1 ++ [delta_mutation
                   [createLocationEntity (Parsed.typed env)
                      (Parsed.cast Sample.parsed_backend_2)]])%list.
Proof. repeat (split; [vm_compute; reflexivity|]). vm_compute. reflexivity. Qed.

Lemma rejected_delta_of_string_versions_is_lost_witness :
  let env := Sample.parsing [Sample.parsed_backend_1_0_0] in
  let w := Sample.failing_sink in
  let w2 := snd (Parsed.reconcile env [Sample.parsed_backend_1_0_0] [] w) in
  exists w1 w3,
    Parsed.discover env w = (Throw Sample.db_down, w1) /\
    table w1 = table w2 /\
    sink w1 = sink w /\
    Parsed.discover env w1 = (Ok tt, w3) /\
    sink w3 = sink w /\
    table w3 = table w2.
Proof.
  apply (@rejected_delta_of_string_versions_is_lost
           (Sample.parsing [Sample.parsed_backend_1_0_0])
           Sample.failing_sink
           (Sample.document_of [Sample.parsed_backend_1_0_0])
           [createLocationEntity
              (Parsed.typed (Sample.parsing [Sample.parsed_backend_1_0_0]))
              (Parsed.cast Sample.parsed_backend_1_0_0)]
           (snd (Parsed.reconcile (Sample.parsing [Sample.parsed_backend_1_0_0])
                                  [Sample.parsed_backend_1_0_0] []
                                  Sample.failing_sink))
           Sample.db_down []).
  - reflexivity.
  - vm_compute. reflexivity.
  - repeat constructor.
  - intros r1 r2 H1 H2 _. simpl in H1, H2.
    destruct H1 as [<-|[]], H2 as [<-|[]]. reflexivity.
  - vm_compute. reflexivity.
  - discriminate.
  - vm_compute. reflexivity.
  - constructor.
Defined.

(** With a numeric version the rejected delta is not lost: the next pass
    emits the descriptor again. *)
Example rejected_numeric_delta_is_emitted_again :
  let env := Sample.parsing [Sample.parsed_backend_2] in
  let w1 := snd (Parsed.discover env Sample.failing_sink) in
  fst (Parsed.discover env Sample.failing_sink) = Throw Sample.db_down /\
  sink w1 = [] /\
  sink (snd (Parsed.discover env w1))
  = [delta_mutation
       [createLocationEntity (Parsed.typed env)
          (Parsed.cast Sample.parsed_backend_2)]].
Proof. repeat (split; [vm_compute; reflexivity|]). vm_compute. reflexivity. Qed.

Lemma successive_passes_emit_the_differing_keys_witness :
  let env1 := Sample.parsing [Sample.parsed_backend_1_0_0; Sample.parsed_frontend_2_1_3] in
  let env2 := Sample.parsing [Sample.parsed_backend_1_0_1; Sample.parsed_frontend_2_1_3] in
  let w := Sample.fresh in
  let before :=
    previous_version (known_of (table w))
      (map Parsed.cast [Sample.parsed_backend_1_0_0; Sample.parsed_frontend_2_1_3]) in
  let differing :=
    filter (fun r => needs_publication
                       (classify (before (repoKey_of r)) (version r)))
           (map Parsed.cast [Sample.parsed_backend_1_0_1; Sample.parsed_frontend_2_1_3]) in
  exists w1 w2,
    Parsed.discover env1 w = (Ok tt, w1) /\
    Parsed.discover env2 w1 = (Ok tt, w2) /\
    sink w2 =
      (sink w1 ++ if Nat.ltb 0 (List.length differing)
                  then [delta_mutation
                          (map (createLocationEntity (Parsed.typed env2)) differing)]
                  else [])%list.
Proof.
  apply (@successive_passes_emit_the_differing_keys
           (Sample.parsing [Sample.parsed_backend_1_0_0; Sample.parsed_frontend_2_1_3])
           (Sample.parsing [Sample.parsed_backend_1_0_1; Sample.parsed_frontend_2_1_3])
           Sample.fresh
           (Sample.document_of [Sample.parsed_backend_1_0_0; Sample.parsed_frontend_2_1_3])
           (Sample.document_of [Sample.parsed_backend_1_0_1; Sample.parsed_frontend_2_1_3])).
  - reflexivity.
  - unfold fault_free. simpl. constructor.
  - vm_compute. reflexivity.
  - vm_compute. reflexivity.
  - repeat constructor.
  - repeat constructor.
  - simpl. constructor; [simpl; intros [H|[]]; discriminate H|].
    constructor; [intros [] | constructor].
Defined.

(** The condition on the keys is needed: after a pass over [A@1.0.0], a
    manifest listing [A@1.0.1] and then [A@1.0.0] has both emitted, the
    second although its version is the one the first manifest declared. *)
Example repeated_key_is_emitted_without_difference :
  let env1 := Sample.parsing [Sample.parsed_backend_1_0_0] in
  let env2 := Sample.parsing [Sample.parsed_backend_1_0_1; Sample.parsed_backend_1_0_0] in
  let w1 := snd (Parsed.discover env1 Sample.fresh) in
  sink (snd (Parsed.discover env2 w1))
  = (sink w1
       ++ [delta_mutation
             (map (createLocationEntity (Parsed.typed env2))
                  (map Parsed.cast
                       [Sample.parsed_backend_1_0_1; Sample.parsed_backend_1_0_0]))])%list.
Proof. vm_compute. reflexivity. Qed.
